(** * Multi-camera recognition pipeline: a shallow embedding

    The development follows the Python sources module by module:
    [config], the parts of [face_recognition] and [numpy] the pipeline calls,
    [intruder_tracker] and [camera_stream].  Wall-clock readings and
    descriptor distances are Python floats in the source; they are modelled
    as exact rationals ([Q]), compared with [Qle_bool].  Everything the
    operating system, the camera or the vision library decides is an explicit
    input (a class of opaque capabilities or a script of responses), and
    every externally visible side effect is appended to a trace. *)

From Stdlib Require Import QArith Lqa Lia List String Ascii DecimalString DecimalNat.
From stdpp Require Import base option list strings gmap.

Local Open Scope string_scope.

(** ** Python values shared by all modules *)

Inductive exn : Type :=
| IndexError
| UnboundLocalError
| ValueError
| QueueFull
| QueueEmpty
| LibraryError.

Inductive Result (A : Type) : Type :=
| Ok (a : A)
| Raise (e : exn).
Arguments Ok {A} a.
Arguments Raise {A} e.

#[export] Instance Result_ret : MRet Result := fun A a => Ok a.

#[export] Instance Result_bind : MBind Result := fun A B k r =>
  match r with
  | Ok a => k a
  | Raise e => Raise e
  end.

(** [l[i]] for a non-negative index. *)
Definition py_index {A : Type} (l : list A) (i : nat) : Result A :=
  match l !! i with
  | Some x => Ok x
  | None => Raise IndexError
  end.

(** Truth value of a list: [if l:]. *)
Definition py_truthy {A : Type} (l : list A) : bool :=
  match l with
  | [] => false
  | _ :: _ => true
  end.

(** [str(n)] for a natural number. *)
Definition str_of_nat (n : nat) : string :=
  NilEmpty.string_of_uint (Nat.to_uint n).

(** [sep in s]. *)
Definition str_contains (sep s : string) : bool :=
  match index 0 sep s with
  | Some _ => true
  | None => false
  end.

(** [s.split(sep)[0]]: the text before the first occurrence of [sep]. *)
Definition str_split_head (sep s : string) : string :=
  match index 0 sep s with
  | Some n => substring 0 n s
  | None => s
  end.

(** [s.startswith(p)]. *)
Definition str_startswith (p s : string) : bool := String.prefix p s.

(** ** config.py *)

Module config.
Definition INTRUDERS_FOLDER : string := "intruders".
Definition UNKNOWN_CAPTURE_DEBOUNCE_TIME : Q := 10.
Definition KNOWN_FACE_LOG_DEBOUNCE_TIME : Q := 25.
Definition RECOGNITION_TOLERANCE : Q := 6 # 10.
End config.

(** ** The opaque recognition capability

    A descriptor is whatever the encoder produces; the only thing the
    pipeline ever does with two descriptors is take their distance. *)

Class FaceMetric (Descriptor : Type) : Type :=
  { norm_diff : Descriptor -> Descriptor -> Q }.

(** ** numpy.argmin: index of the first occurrence of the minimum *)

Module np.

Fixpoint argmin_from (best_i : nat) (best : Q) (i : nat) (l : list Q) : nat :=
  match l with
  | [] => best_i
  | x :: l' =>
      if Qle_bool best x
      then argmin_from best_i best (S i) l'
      else argmin_from i x (S i) l'
  end.

Definition argmin (l : list Q) : Result nat :=
  match l with
  | [] => Raise ValueError
  | x :: l' => Ok (argmin_from 0 x 1 l')
  end.

End np.

(** ** The two calls made into the face_recognition package

    [face_distance] lists the distance of every known descriptor to the
    candidate, [compare_faces] lists whether each of those distances is
    within the tolerance. *)

Module face_recognition.
Section api.
Context {Descriptor : Type} `{!FaceMetric Descriptor}.

Definition face_distance (face_encodings : list Descriptor)
    (face_to_compare : Descriptor) : list Q :=
  map (fun e => norm_diff e face_to_compare) face_encodings.

Definition compare_faces (known_face_encodings : list Descriptor)
    (face_encoding_to_check : Descriptor) (tolerance : Q) : list bool :=
  map (fun x => Qle_bool x tolerance)
      (face_distance known_face_encodings face_encoding_to_check).
End api.
End face_recognition.

(** ** Side effects and the state shared by every camera session *)

(** [camera_input] is a USB index or a stream URL. *)
Inductive CameraInput : Type :=
| UsbIndex (n : nat)
| StreamUrl (url : string).

(** [str(camera_input)]. *)
Definition str_of_camera (c : CameraInput) : string :=
  match c with
  | UsbIndex n => str_of_nat n
  | StreamUrl url => url
  end.

(** [isinstance(camera_input, int)]. *)
Definition camera_is_int (c : CameraInput) : bool :=
  match c with
  | UsbIndex _ => true
  | StreamUrl _ => false
  end.

(** A face box as the detector returns it: (top, right, bottom, left). *)
Definition Box : Type := Z * Z * Z * Z.

Section world.
Context {Descriptor Frame : Type}.

Inductive Effect : Type :=
| LoadIntruderDb
| SaveIntruderDb (encodings : list Descriptor) (ids : list string)
| OpenCapture (camera : CameraInput)
| CapSet (camera : CameraInput) (prop : string) (value : Z)
| ReleaseCapture (camera : CameraInput)
| Sleep (seconds : Q)
| FaceLocations (image : Frame)
| FaceEncodings (image : Frame) (boxes : list Box)
| ImWrite (path : string) (image : Frame)
| WriteLogEntry (name gender : string) (image_link : option string)
| SendAlert (image_path alert_time camera : string).

(** [intruder_file] is the content of intruder_encodings.pkl ([None]: the
    file is missing or unreadable); [last_unknown_capture_time] is the
    module-level timestamp of camera_stream, read and written only under
    its lock; [stop_event] is the event handed to every session. *)
Record World : Type := mkWorld
  { intruder_file : option (list Descriptor * list string);
    last_unknown_capture_time : Q;
    stop_event : bool;
    trace : list Effect }.

Definition emit (e : Effect) (w : World) : World :=
  mkWorld (intruder_file w) (last_unknown_capture_time w) (stop_event w)
          (trace w ++ [e]).

Definition set_stop_event (w : World) : World :=
  mkWorld (intruder_file w) (last_unknown_capture_time w) true (trace w).

Definition set_last_unknown_capture_time (t : Q) (w : World) : World :=
  mkWorld (intruder_file w) t (stop_event w) (trace w).

Definition write_intruder_file (db : list Descriptor * list string)
    (w : World) : World :=
  mkWorld (Some db) (last_unknown_capture_time w) (stop_event w) (trace w).

(** The state of a freshly started process: no registry file yet, the
    debounce timestamp at its initial value 0, nothing signalled. *)
Definition fresh_world : World := mkWorld None 0 false [].
End world.
Arguments Effect : clear implicits.
Arguments World : clear implicits.

(** [f"Intruder_{k}"]. *)
Definition intruder_name (k : nat) : string := "Intruder_" ++ str_of_nat k.

(** ** intruder_tracker.py *)

Module intruder_tracker.
Section defs.
Context {Descriptor Frame : Type} `{!FaceMetric Descriptor}.

Definition load_intruder_db (w : World Descriptor Frame)
    : (list Descriptor * list string) * World Descriptor Frame :=
  (match intruder_file w with
   | Some db => db
   | None => ([], [])
   end, emit LoadIntruderDb w).

Definition save_intruder_db (encodings : list Descriptor) (ids : list string)
    (w : World Descriptor Frame) : World Descriptor Frame :=
  emit (SaveIntruderDb encodings ids) (write_intruder_file (encodings, ids) w).

Definition match_or_add_intruder (new_encoding : Descriptor) (threshold : Q)
    (w : World Descriptor Frame) : Result string * World Descriptor Frame :=
  let '((encodings, ids), w1) := load_intruder_db w in
  let matched : option (Result string) :=
    if py_truthy encodings then
      let matches :=
        face_recognition.compare_faces encodings new_encoding threshold in
      let face_distances :=
        face_recognition.face_distance encodings new_encoding in
      if existsb (fun m => m) matches then
        Some (best_match_index ← np.argmin face_distances;
              py_index ids best_match_index)
      else None
    else None in
  match matched with
  | Some r => (r, w1)
  | None =>
      let new_intruder_id := "Intruder_" ++ str_of_nat (length ids + 1) in
      (Ok new_intruder_id,
       save_intruder_db (encodings ++ [new_encoding])
                        (ids ++ [new_intruder_id]) w1)
  end.
End defs.
End intruder_tracker.

(** ** queue.Queue, restricted to the non-blocking calls the pipeline makes

    [maxsize = 0] means unbounded, as in Python. *)

Module queue.
Section defs.
Context {A : Type}.

Record Queue : Type := mkQueue
  { maxsize : nat;
    items : list A }.

Definition empty (q : Queue) : bool :=
  match items q with
  | [] => true
  | _ :: _ => false
  end.

Definition full (q : Queue) : bool :=
  (0 <? maxsize q)%nat && (maxsize q <=? length (items q))%nat.

Definition put_nowait (x : A) (q : Queue) : Result Queue :=
  if full q then Raise QueueFull
  else Ok (mkQueue (maxsize q) (items q ++ [x])).

Definition get_nowait (q : Queue) : Result (A * Queue) :=
  match items q with
  | [] => Raise QueueEmpty
  | x :: rest => Ok (x, mkQueue (maxsize q) rest)
  end.
End defs.
Arguments Queue : clear implicits.
End queue.

(** ** The vision capabilities camera_stream.py calls

    Detection and encoding may raise; the drawing primitives return the
    image they were given with the shape or text painted on it. *)

Class Vision (Frame Descriptor : Type) : Type :=
  { resize_quarter : Frame -> Frame;
    cvtColor_BGR2RGB : Frame -> Frame;
    frame_is_empty : Frame -> bool;
    face_locations : Frame -> Result (list Box);
    face_encodings : Frame -> list Box -> Result (list Descriptor);
    rectangle : Frame -> Z * Z -> Z * Z -> Z * Z * Z -> Z -> Frame;
    putText : Frame -> string -> Z * Z -> Q -> Z * Z * Z -> Z -> Frame;
    getTextSize : string -> Q -> Z -> Z * Z }.

(** ** camera_stream.py *)

Module camera_stream.

(** What the clocks and [strftime] return while one face is handled. *)
Record Clock : Type := mkClock
  { time_time : Q;
    capture_stamp : string;
    alert_stamp : string;
    datetime_now : Q }.

(** What the outside world contributes to one processed frame: the clock
    readings for the face at each position, and whether another thread set
    the stop event while detection was running. *)
Record FrameEnv : Type := mkFrameEnv
  { clock : nat -> Clock;
    stop_meanwhile : bool }.

(** What the camera answers during one reader step: whether an open (or
    reopen) succeeds and what [cap.read()] returns. *)
Record ReaderEnv (Frame : Type) : Type := mkReaderEnv
  { open_ok : bool;
    read : option Frame }.
Arguments mkReaderEnv {Frame} open_ok read.
Arguments open_ok {Frame} r.
Arguments read {Frame} r.

Inductive Capture : Type :=
| NoCapture
| VideoCapture (isOpened : bool).

Inductive ThreadState : Type :=
| NotStarted
| Alive
| Finished
| Died (e : exn).

Inductive Control : Type :=
| Continue
| Break
| Crash (e : exn).

Definition CV_FILLED : Z := (-1)%Z.
Definition MAX_REASONABLE_FACES : nat := 10.
Definition min_face_size : Z := 20%Z.

Section defs.
Context {Descriptor Frame : Type}.
Context `{!FaceMetric Descriptor} `{!Vision Frame Descriptor}.

(** A [CameraStream] object together with the locals of its two thread
    bodies ([frame_counter] and [intruder_id_for_event] belong to
    [_run_processing_loop]; the latter is unbound until first assigned). *)
Record Session : Type := mkSession
  { camera_input : CameraInput;
    cap : Capture;
    reader_thread : ThreadState;
    processing_thread : ThreadState;
    internal_frame_queue : queue.Queue Frame;
    frame_queue : queue.Queue Frame;
    known_face_encodings : list Descriptor;
    known_face_names : list string;
    known_face_genders : list string;
    recognition_tolerance : Q;
    last_logged_times : gmap string Q;
    frame_counter : nat;
    intruder_id_for_event : option string }.

(** [CameraStream.__init__]. *)
Definition init (camera : CameraInput) (known_encs : list Descriptor)
    (known_names known_genders : list string)
    (display_queue : queue.Queue Frame) : Session :=
  mkSession camera NoCapture NotStarted NotStarted (queue.mkQueue 1 [])
            display_queue known_encs known_names known_genders
            config.RECOGNITION_TOLERANCE ∅ 0 None.

Definition set_cap (c : Capture) (s : Session) : Session :=
  mkSession (camera_input s) c (reader_thread s) (processing_thread s)
            (internal_frame_queue s) (frame_queue s) (known_face_encodings s)
            (known_face_names s) (known_face_genders s)
            (recognition_tolerance s) (last_logged_times s) (frame_counter s)
            (intruder_id_for_event s).

Definition set_reader_thread (t : ThreadState) (s : Session) : Session :=
  mkSession (camera_input s) (cap s) t (processing_thread s)
            (internal_frame_queue s) (frame_queue s) (known_face_encodings s)
            (known_face_names s) (known_face_genders s)
            (recognition_tolerance s) (last_logged_times s) (frame_counter s)
            (intruder_id_for_event s).

Definition set_processing_thread (t : ThreadState) (s : Session) : Session :=
  mkSession (camera_input s) (cap s) (reader_thread s) t
            (internal_frame_queue s) (frame_queue s) (known_face_encodings s)
            (known_face_names s) (known_face_genders s)
            (recognition_tolerance s) (last_logged_times s) (frame_counter s)
            (intruder_id_for_event s).

Definition set_internal_frame_queue (q : queue.Queue Frame) (s : Session)
    : Session :=
  mkSession (camera_input s) (cap s) (reader_thread s) (processing_thread s)
            q (frame_queue s) (known_face_encodings s)
            (known_face_names s) (known_face_genders s)
            (recognition_tolerance s) (last_logged_times s) (frame_counter s)
            (intruder_id_for_event s).

Definition set_frame_queue (q : queue.Queue Frame) (s : Session) : Session :=
  mkSession (camera_input s) (cap s) (reader_thread s) (processing_thread s)
            (internal_frame_queue s) q (known_face_encodings s)
            (known_face_names s) (known_face_genders s)
            (recognition_tolerance s) (last_logged_times s) (frame_counter s)
            (intruder_id_for_event s).

Definition set_last_logged_times (m : gmap string Q) (s : Session) : Session :=
  mkSession (camera_input s) (cap s) (reader_thread s) (processing_thread s)
            (internal_frame_queue s) (frame_queue s) (known_face_encodings s)
            (known_face_names s) (known_face_genders s)
            (recognition_tolerance s) m (frame_counter s)
            (intruder_id_for_event s).

Definition set_frame_counter (n : nat) (s : Session) : Session :=
  mkSession (camera_input s) (cap s) (reader_thread s) (processing_thread s)
            (internal_frame_queue s) (frame_queue s) (known_face_encodings s)
            (known_face_names s) (known_face_genders s)
            (recognition_tolerance s) (last_logged_times s) n
            (intruder_id_for_event s).

Definition set_intruder_id_for_event (v : option string) (s : Session)
    : Session :=
  mkSession (camera_input s) (cap s) (reader_thread s) (processing_thread s)
            (internal_frame_queue s) (frame_queue s) (known_face_encodings s)
            (known_face_names s) (known_face_genders s)
            (recognition_tolerance s) (last_logged_times s) (frame_counter s)
            v.

(** *** The reader thread: [_run_reader_loop] *)

(** The [cap.set] calls after a capture was opened. *)
Definition configure_capture (with_size : bool) (s : Session)
    (w : World Descriptor Frame) : World Descriptor Frame :=
  let c := camera_input s in
  let w1 := emit (CapSet c "CAP_PROP_BUFFERSIZE" 1) w in
  if with_size then
    emit (CapSet c "CAP_PROP_FRAME_HEIGHT" 240)
         (emit (CapSet c "CAP_PROP_FRAME_WIDTH" 320) w1)
  else w1.

(** Lines 59-71: open the source; give up at once when it does not open. *)
Definition reader_prologue (env : ReaderEnv Frame) (s : Session)
    (w : World Descriptor Frame) : Session * World Descriptor Frame :=
  let w1 := emit (OpenCapture (camera_input s)) w in
  let s1 := set_cap (VideoCapture (open_ok env)) s in
  if negb (open_ok env) then
    (set_reader_thread Finished s1, set_stop_event w1)
  else
    (set_reader_thread Alive s1, configure_capture true s1 w1).

(** Lines 90-98: the hand-off of a frame.  Both queue calls sit in one
    [try]; an exception is printed and swallowed, and whatever the queue
    had become by then stays. *)
Definition handoff (frame : Frame) (q : queue.Queue Frame)
    : queue.Queue Frame :=
  let after_get : Result (queue.Queue Frame) :=
    if negb (queue.empty q)
    then '(_, q') ← queue.get_nowait q; Ok q'
    else Ok q in
  match after_get with
  | Raise _ => q
  | Ok q1 =>
      match queue.put_nowait frame q1 with
      | Ok q2 => q2
      | Raise _ => q1
      end
  end.

(** Lines 74-100: the body of one pass through the while loop. *)
Definition reader_body (env : ReaderEnv Frame) (s : Session)
    (w : World Descriptor Frame)
    : Control * Session * World Descriptor Frame :=
  match read env with
  | None =>
      let c := camera_input s in
      let w1 := emit (ReleaseCapture c) w in
      let w2 := emit (Sleep (1 # 2)) w1 in
      let w3 := emit (OpenCapture c) w2 in
      let s1 := set_cap (VideoCapture (open_ok env)) s in
      if negb (open_ok env) then
        (Break, s1, set_stop_event w3)
      else
        (Continue, s1, configure_capture (camera_is_int c) s1 w3)
  | Some frame =>
      let s1 :=
        set_internal_frame_queue (handoff frame (internal_frame_queue s)) s in
      (Continue, s1, emit (Sleep (1 # 1000)) w)
  end.

(** Lines 102-104: what follows the loop. *)
Definition reader_epilogue (s : Session) (w : World Descriptor Frame)
    : Session * World Descriptor Frame :=
  (set_reader_thread Finished (set_cap (VideoCapture false) s),
   emit (ReleaseCapture (camera_input s)) w).

(** One scheduling step of the reader thread: the prologue when it has just
    been started, otherwise the loop test and one pass through the body. *)
Definition reader_step (env : ReaderEnv Frame) (s : Session)
    (w : World Descriptor Frame) : Session * World Descriptor Frame :=
  match reader_thread s with
  | NotStarted => reader_prologue env s w
  | Alive =>
      if stop_event w then reader_epilogue s w
      else
        match reader_body env s w with
        | (Continue, s1, w1) => (s1, w1)
        | (Break, s1, w1) => reader_epilogue s1 w1
        | (Crash e, s1, w1) => (set_reader_thread (Died e) s1, w1)
        end
  | Finished | Died _ => (s, w)
  end.

(** The reader thread run against a script of camera answers. *)
Fixpoint run_reader (script : list (ReaderEnv Frame)) (s : Session)
    (w : World Descriptor Frame) : Session * World Descriptor Frame :=
  match script with
  | [] => (s, w)
  | env :: rest =>
      let '(s1, w1) := reader_step env s w in
      run_reader rest s1 w1
  end.

(** *** The processing thread: [_run_processing_loop] *)

(** [try: self.frame_queue.put_nowait(f) except queue.Full: pass]. *)
Definition publish (f : Frame) (s : Session) : Session :=
  match queue.put_nowait f (frame_queue s) with
  | Ok q => set_frame_queue q s
  | Raise _ => s
  end.

(** Lines 196-210: the lookup in the known catalog.  The result is
    (recognized_name_with_gender, recognized_gender_only,
    recognized_person_name_only). *)
Definition recognize (s : Session) (face_encoding : Descriptor)
    : Result (string * string * string) :=
  let unknown := ("Unknown", "Intruder", "Unknown") in
  if py_truthy (known_face_encodings s) then
    let matches :=
      face_recognition.compare_faces (known_face_encodings s) face_encoding
                                     (recognition_tolerance s) in
    let face_distances :=
      face_recognition.face_distance (known_face_encodings s) face_encoding in
    if (0 <? length face_distances)%nat then
      best_match_index ← np.argmin face_distances;
      m ← py_index matches best_match_index;
      if m : bool then
        name_with_gender ← py_index (known_face_names s) best_match_index;
        gender_only ← py_index (known_face_genders s) best_match_index;
        Ok (name_with_gender, gender_only,
            if str_contains "__" name_with_gender
            then str_split_head "__" name_with_gender
            else name_with_gender)
      else Ok unknown
    else Ok unknown
  else Ok unknown.

(** Lines 226-232: the gate for unknown faces, one compare-and-update under
    the module lock. *)
Definition unknown_capture_debounce (current_time_epoch : Q)
    (w : World Descriptor Frame) : bool * World Descriptor Frame :=
  if Qle_bool config.UNKNOWN_CAPTURE_DEBOUNCE_TIME
              (current_time_epoch - last_unknown_capture_time w)
  then (true, set_last_unknown_capture_time current_time_epoch w)
  else (false, w).

(** [os.path.join(config.INTRUDERS_FOLDER, f"intruder_{stamp}.jpg")]. *)
Definition capture_path (stamp : string) : string :=
  config.INTRUDERS_FOLDER ++ "/" ++ "intruder_" ++ stamp ++ ".jpg".

(** Lines 235-260: the full intruder event.  An exception anywhere in the
    [try] is printed and swallowed; the variable keeps what it held. *)
Definition full_intruder_event (camera : CameraInput) (clk : Clock)
    (frame : Frame) (face_encoding : Descriptor) (id_var : option string)
    (w : World Descriptor Frame) : option string * World Descriptor Frame :=
  match intruder_tracker.match_or_add_intruder
          face_encoding config.RECOGNITION_TOLERANCE w with
  | (Ok intruder_id, w1) =>
      let full_path_for_new_capture := capture_path (capture_stamp clk) in
      let w2 := emit (ImWrite full_path_for_new_capture frame) w1 in
      let w3 := emit (WriteLogEntry intruder_id "Intruder"
                                    (Some full_path_for_new_capture)) w2 in
      let w4 := emit (SendAlert full_path_for_new_capture (alert_stamp clk)
                                (str_of_camera camera)) w3 in
      (Some intruder_id, w4)
  | (Raise _, w1) => (id_var, w1)
  end.

(** Lines 213-263: what happens for a face the catalog does not know.  The
    first component is the label shown on the frame. *)
Definition intruder_event_management (camera : CameraInput) (clk : Clock)
    (frame : Frame) (face_encoding : Descriptor) (id_var : option string)
    (w : World Descriptor Frame)
    : Result string * option string * World Descriptor Frame :=
  let '(trigger_full_intruder_event, w1) :=
    unknown_capture_debounce (time_time clk) w in
  let '(id_var1, w2) :=
    if trigger_full_intruder_event
    then full_intruder_event camera clk frame face_encoding id_var w1
    else (id_var, w1) in
  (match id_var1 with
   | Some intruder_id => Ok intruder_id
   | None => Raise UnboundLocalError
   end, id_var1, w2).

(** Lines 274-280: the per-session gate for known faces. *)
Definition log_known_face (name_with_gender person_name gender : string)
    (current_time_dt : Q) (times : gmap string Q)
    (w : World Descriptor Frame) : gmap string Q * World Descriptor Frame :=
  let due :=
    match times !! name_with_gender with
    | None => true
    | Some last_time =>
        Qle_bool config.KNOWN_FACE_LOG_DEBOUNCE_TIME
                 (current_time_dt - last_time)
    end in
  if due then
    (<[name_with_gender := current_time_dt]> times,
     emit (WriteLogEntry person_name gender None) w)
  else (times, w).

(** Lines 195-280: the body of the loop over the encodings of one frame. *)
Definition process_face (clk : Clock) (frame : Frame)
    (face_encoding : Descriptor) (s : Session) (w : World Descriptor Frame)
    : Result string * Session * World Descriptor Frame :=
  match recognize s face_encoding with
  | Raise e => (Raise e, s, w)
  | Ok (name_with_gender, gender_only, person_name_only) =>
      if String.eqb name_with_gender "Unknown" then
        let '(label, id_var, w1) :=
          intruder_event_management (camera_input s) clk frame face_encoding
                                    (intruder_id_for_event s) w in
        (label, set_intruder_id_for_event id_var s, w1)
      else
        let '(times, w1) :=
          log_known_face name_with_gender person_name_only gender_only
                         (datetime_now clk) (last_logged_times s) w in
        (Ok person_name_only, set_last_logged_times times s, w1)
  end.

Fixpoint process_faces (clocks : nat -> Clock) (i : nat) (frame : Frame)
    (encodings : list Descriptor) (faces_to_display_on_frame : list string)
    (s : Session) (w : World Descriptor Frame)
    : Result (list string) * Session * World Descriptor Frame :=
  match encodings with
  | [] => (Ok faces_to_display_on_frame, s, w)
  | face_encoding :: rest =>
      match process_face (clocks i) frame face_encoding s w with
      | (Ok label, s1, w1) =>
          process_faces clocks (S i) frame rest
                        (faces_to_display_on_frame ++ [label]) s1 w1
      | (Raise e, s1, w1) => (Raise e, s1, w1)
      end
  end.

(** Lines 166-175: boxes smaller than [min_face_size] are discarded. *)
Definition valid_face (b : Box) : bool :=
  let '(top, right_, bottom, left_) := b in
  (min_face_size <=? bottom - top)%Z && (min_face_size <=? right_ - left_)%Z.

(** Lines 286-296: one labelled rectangle, green for a known name and red
    for "Unknown" and for intruder ids. *)
Definition draw_face (drawn_frame : Frame) (b : Box)
    (display_name_on_frame : string) : Frame :=
  let '(top, right_, bottom, left_) := b in
  let top := (top * 4)%Z in
  let right_ := (right_ * 4)%Z in
  let bottom := (bottom * 4)%Z in
  let left_ := (left_ * 4)%Z in
  let known :=
    negb (String.eqb display_name_on_frame "Unknown")
    && negb (str_startswith "Intruder_" display_name_on_frame) in
  let color := if known then (0, 255, 0)%Z else (0, 0, 255)%Z in
  let text_color := if known then (0, 0, 0)%Z else (255, 255, 255)%Z in
  let img1 := rectangle drawn_frame (left_, top) (right_, bottom) color 2 in
  let img2 :=
    rectangle img1 (left_, bottom - 35)%Z (right_, bottom) color CV_FILLED in
  putText img2 display_name_on_frame (left_ + 6, bottom - 6)%Z (8 # 10)
          text_color 2.

(** Lines 298-306: the banner shown when no face survived. *)
Definition draw_banner (drawn_frame : Frame) : Frame :=
  let text := "Non human object or no face detected" in
  let '(text_w, text_h) := getTextSize text (7 # 10) 2 in
  let img1 :=
    rectangle drawn_frame (10 - 5, 30 - text_h - 5)%Z
              (10 + text_w + 5, 30 + 5)%Z (0, 0, 255)%Z CV_FILLED in
  putText img1 text (10, 30)%Z (7 # 10) (255, 255, 255)%Z 2.

(** Lines 285-306. *)
Definition annotate (drawn_frame : Frame) (face_locations : list Box)
    (faces_to_display_on_frame : list string) : Frame :=
  if (0 <? length face_locations)%nat then
    fold_left (fun img bn => draw_face img (fst bn) (snd bn))
              (zip face_locations faces_to_display_on_frame) drawn_frame
  else draw_banner drawn_frame.

(** Lines 136-314: everything done with one frame taken from the internal
    queue. *)
Definition process_frame (env : FrameEnv) (frame : Frame) (s : Session)
    (w : World Descriptor Frame)
    : Control * Session * World Descriptor Frame :=
  let s := set_frame_counter (frame_counter s + 1) s in
  let process_this_frame := (frame_counter s mod 4 =? 0)%nat in
  let drawn_frame := frame in
  if process_this_frame then
    let rgb_small_frame := cvtColor_BGR2RGB (resize_quarter frame) in
    if frame_is_empty rgb_small_frame then
      (Continue, publish drawn_frame s, emit (Sleep (5 # 1000)) w)
    else
      let fatal (w : World Descriptor Frame) :=
        (Break, publish drawn_frame s,
         emit (Sleep (5 # 1000)) (set_stop_event w)) in
      let w1 := emit (FaceLocations rgb_small_frame) w in
      match face_locations rgb_small_frame with
      | Raise _ => fatal w1
      | Ok locations =>
          if (MAX_REASONABLE_FACES <? length locations)%nat then
            (Continue, s, w1)
          else
            let locations := List.filter valid_face locations in
            let w2 := emit (FaceEncodings rgb_small_frame locations) w1 in
            match face_encodings rgb_small_frame locations with
            | Raise _ => fatal w2
            | Ok encodings =>
                let w3 :=
                  if stop_meanwhile env then set_stop_event w2 else w2 in
                if stop_event w3 then (Break, s, w3)
                else
                  match process_faces (clock env) 0 frame encodings [] s w3 with
                  | (Raise e, s1, w4) => (Crash e, s1, w4)
                  | (Ok faces_to_display_on_frame, s1, w4) =>
                      let drawn_frame :=
                        annotate drawn_frame locations
                                 faces_to_display_on_frame in
                      (Continue, publish drawn_frame s1,
                       emit (Sleep (1 # 1000)) w4)
                  end
            end
      end
  else
    (Continue, publish drawn_frame s, emit (Sleep (1 # 1000)) w).

(** One scheduling step of the processing thread: the loop test, the timed
    [get] on the internal queue and, when a frame was waiting, its
    processing. *)
Definition processing_step (env : FrameEnv) (s : Session)
    (w : World Descriptor Frame) : Session * World Descriptor Frame :=
  match processing_thread s with
  | NotStarted => (set_processing_thread Alive (set_frame_counter 0 s), w)
  | Alive =>
      if stop_event w then (set_processing_thread Finished s, w)
      else
        match queue.get_nowait (internal_frame_queue s) with
        | Raise _ => (s, emit (Sleep (5 # 1000)) w)
        | Ok (frame, q) =>
            match process_frame env frame (set_internal_frame_queue q s) w with
            | (Continue, s1, w1) => (s1, w1)
            | (Break, s1, w1) => (set_processing_thread Finished s1, w1)
            | (Crash e, s1, w1) => (set_processing_thread (Died e) s1, w1)
            end
        end
  | Finished | Died _ => (s, w)
  end.

(** *** Several sessions over one shared world *)

Inductive Event : Type :=
| StopRequested
| ReaderRuns (i : nat) (env : ReaderEnv Frame)
| ProcessingRuns (i : nat) (env : FrameEnv)
| DisplayTakes (i : nat).

Record System : Type := mkSystem
  { sessions : list Session;
    world : World Descriptor Frame }.

Definition with_session (i : nat)
    (f : Session -> World Descriptor Frame
         -> Session * World Descriptor Frame)
    (sys : System) : System :=
  match sessions sys !! i with
  | None => sys
  | Some s =>
      let '(s1, w1) := f s (world sys) in
      mkSystem (<[i := s1]> (sessions sys)) w1
  end.

(** The display collaborator polls a session's output queue. *)
Definition display_take (s : Session) (w : World Descriptor Frame)
    : Session * World Descriptor Frame :=
  match queue.get_nowait (frame_queue s) with
  | Ok (_, q) => (set_frame_queue q s, w)
  | Raise _ => (s, w)
  end.

Definition system_step (ev : Event) (sys : System) : System :=
  match ev with
  | StopRequested => mkSystem (sessions sys) (set_stop_event (world sys))
  | ReaderRuns i env => with_session i (reader_step env) sys
  | ProcessingRuns i env => with_session i (processing_step env) sys
  | DisplayTakes i => with_session i display_take sys
  end.

Definition run_system (schedule : list Event) (sys : System) : System :=
  fold_left (fun acc ev => system_step ev acc) schedule sys.

End defs.
Arguments Session : clear implicits.
Arguments System : clear implicits.
Arguments Event : clear implicits.
End camera_stream.

(** ** The face match of the specification

    Compute the distance to every reference entry, select the entry with
    the minimum distance (the earliest one among equals), accept it only
    when that distance is within the tolerance. *)

Section face_match_spec.
Context {Descriptor Label : Type} `{!FaceMetric Descriptor}.

Fixpoint nearest_from (d : Descriptor) (best : Descriptor * Label)
    (R : list (Descriptor * Label)) : Descriptor * Label :=
  match R with
  | [] => best
  | p :: R' =>
      if Qle_bool (norm_diff (fst best) d) (norm_diff (fst p) d)
      then nearest_from d best R'
      else nearest_from d p R'
  end.

Definition nearest (d : Descriptor) (R : list (Descriptor * Label))
    : option (Descriptor * Label) :=
  match R with
  | [] => None
  | p :: R' => Some (nearest_from d p R')
  end.

Definition face_match (tolerance : Q) (d : Descriptor)
    (R : list (Descriptor * Label)) : option (Descriptor * Label) :=
  match nearest d R with
  | Some p => if Qle_bool (norm_diff (fst p) d) tolerance then Some p else None
  | None => None
  end.
End face_match_spec.

(** The three labels the catalog lookup assigns when it accepts the
    catalog entry [p]: the stored name, the stored gender and the text in
    front of the first double underscore of the name. *)
Definition known_label {Descriptor : Type}
    (p : Descriptor * (string * string)) : string * string * string :=
  (fst (snd p), snd (snd p),
   if str_contains "__" (fst (snd p))
   then str_split_head "__" (fst (snd p))
   else fst (snd p)).

(** ** Building a registry one descriptor at a time *)

Section enrolment.
Context {Descriptor Frame : Type} `{!FaceMetric Descriptor}.

(** The registry as [load_intruder_db] reads it. *)
Definition registry (w : World Descriptor Frame)
    : list Descriptor * list string :=
  fst (intruder_tracker.load_intruder_db w).

(** [match_or_add_intruder] called on each descriptor in turn. *)
Fixpoint resolve_all (ds : list Descriptor) (threshold : Q)
    (w : World Descriptor Frame)
    : list (Result string) * World Descriptor Frame :=
  match ds with
  | [] => ([], w)
  | d :: rest =>
      let '(r, w1) := intruder_tracker.match_or_add_intruder d threshold w in
      let '(rs, w2) := resolve_all rest threshold w1 in
      (r :: rs, w2)
  end.

(** Every descriptor of [ds] is farther than the threshold from everything
    in [seen] and from every descriptor before it in [ds]. *)
Fixpoint never_seen (threshold : Q) (seen ds : list Descriptor) : Prop :=
  match ds with
  | [] => True
  | d :: rest =>
      Forall (fun e => (threshold < norm_diff e d)%Q) seen
      /\ never_seen threshold (seen ++ [d]) rest
  end.

(** "Intruder_1", ..., "Intruder_n". *)
Definition intruder_ids (n : nat) : list string :=
  map intruder_name (seq 1 n).

(** The effects of enrolling [ds] on top of the records [encodings]: for
    the k-th record of the registry one read of the file and one save of
    the first k records. *)
Definition enrolment_trace (encodings ds : list Descriptor)
    : list (Effect Descriptor Frame) :=
  flat_map (fun k => [LoadIntruderDb;
                      SaveIntruderDb (take k (encodings ++ ds)%list)
                                     (intruder_ids k)])
           (seq (length encodings + 1) (length ds)).

(** The registry file holds as many ids as descriptors. *)
Definition registry_ok (w : World Descriptor Frame) : Prop :=
  length (fst (registry w)) = length (snd (registry w)).
End enrolment.

(** ** Counting the four parts of a full intruder event in a trace *)

Inductive EventPart : Type :=
| Resolution
| Capture
| IntruderLog
| Notification.

Section counting.
Context {Descriptor Frame : Type}.

Definition effect_is (k : EventPart) (e : Effect Descriptor Frame) : bool :=
  match k, e with
  | Resolution, LoadIntruderDb => true
  | Capture, ImWrite _ _ => true
  | IntruderLog, WriteLogEntry _ _ (Some _) => true
  | Notification, SendAlert _ _ _ => true
  | _, _ => false
  end.

Definition occurrences (k : EventPart) (tr : list (Effect Descriptor Frame))
    : nat :=
  length (List.filter (effect_is k) tr).

End counting.

(** ** Scripts for the reader thread *)

(** One camera answer per acquisition, every read successful. *)
Definition acquisitions {Frame : Type} (reads : list (bool * Frame))
    : list (camera_stream.ReaderEnv Frame) :=
  map (fun r => camera_stream.mkReaderEnv (fst r) (Some (snd r))) reads.

(** ** Conditions on the state of the reader thread *)

Section reader_conditions.
Context {Descriptor Frame : Type}.

(** What the reader needs to keep acquiring: it is in its loop, nobody asked
    for a stop, and its queue is the one-slot queue of [__init__]. *)
Definition acquiring (s : camera_stream.Session Descriptor Frame)
    (w : World Descriptor Frame) : Prop :=
  camera_stream.reader_thread s = camera_stream.Alive
  /\ stop_event w = false
  /\ queue.maxsize (camera_stream.internal_frame_queue s) = 1%nat
  /\ (length (queue.items (camera_stream.internal_frame_queue s)) <= 1)%nat.

(** What holds of a reader thread once it has entered its loop: when it has
    finished, the stop event is set, the capture is not open, and the last
    thing the thread did was to release the capture of its camera. *)
Definition reader_inv (s : camera_stream.Session Descriptor Frame)
    (w : World Descriptor Frame) : Prop :=
  match camera_stream.reader_thread s with
  | camera_stream.Alive => True
  | camera_stream.Finished =>
      camera_stream.cap s = camera_stream.VideoCapture false
      /\ stop_event w = true
      /\ exists tr,
           trace w
           = (tr ++ [ReleaseCapture (camera_stream.camera_input s)])%list
  | camera_stream.NotStarted | camera_stream.Died _ => False
  end.
End reader_conditions.

(** ** A small concrete instance, used to run the model

    Descriptors are integers a tenth of a unit apart; an image lists the
    faces a detector would find in it and the marks painted on it. *)

Module toy.

Record Image : Type := mkImage
  { faces : list (Box * Z);
    marks : list string }.

#[global] Instance toy_metric : FaceMetric Z :=
  {| norm_diff a b := (Z.abs (a - b) # 10)%Q |}.

Definition encoding_at (img : Image) (b : Box) : Z :=
  match List.find (fun p => bool_decide (fst p = b)) (faces img) with
  | Some p => snd p
  | None => 0%Z
  end.

#[global] Instance toy_vision : Vision Image Z :=
  {| resize_quarter img := img;
     cvtColor_BGR2RGB img := img;
     frame_is_empty img := false;
     face_locations img := Ok (map fst (faces img));
     face_encodings img boxes := Ok (map (encoding_at img) boxes);
     rectangle img _ _ _ _ := mkImage (faces img) (marks img ++ ["rectangle"]);
     putText img text _ _ _ _ := mkImage (faces img) (marks img ++ [text]);
     getTextSize _ _ _ := (400, 20)%Z |}.

Definition big_box : Box := (0, 40, 40, 0)%Z.

(** A frame showing one face with descriptor [d], and one showing nothing. *)
Definition portrait (d : Z) : Image := mkImage [(big_box, d)] [].
Definition blank : Image := mkImage [] [].

(** A frame in which the detector reports [n] faces. *)
Definition crowd (n : nat) : Image :=
  mkImage (map (fun k => (big_box, Z.of_nat k)) (seq 0 n)) [].

Definition clock_at (t : Q) : camera_stream.Clock :=
  camera_stream.mkClock t "20250101_000000_000000" "2025-01-01 00:00:00" t.

Definition env_at (t : Q) : camera_stream.FrameEnv :=
  camera_stream.mkFrameEnv (fun _ => clock_at t) false.

Definition webcam : CameraInput := UsbIndex 0.

(** A session as [__init__] leaves it, with an empty catalog and an output
    queue of capacity one. *)
Definition session0 : camera_stream.Session Z Image :=
  camera_stream.init webcam [] [] [] (queue.mkQueue 1 []).

(** A session whose catalog knows Alice. *)
Definition session_alice : camera_stream.Session Z Image :=
  camera_stream.init webcam [100%Z] ["Alice__female"] ["female"]
                     (queue.mkQueue 1 []).

Definition world0 : World Z Image := fresh_world.

(** A world whose last full intruder event happened at time 995. *)
Definition world_after_event : World Z Image := mkWorld None 995 false [].

(** Camera [i] is opened and delivers the frame [f] four times; its
    processing thread starts and takes each of them at clock time [t]. *)
Definition four_frames (i : nat) (t : Q) (f : Image)
    : list (camera_stream.Event Image) :=
  [camera_stream.ReaderRuns i (camera_stream.mkReaderEnv true None);
   camera_stream.ProcessingRuns i (env_at t)]
  ++ concat (replicate 4
       [camera_stream.ReaderRuns i (camera_stream.mkReaderEnv true (Some f));
        camera_stream.ProcessingRuns i (env_at t)]).

(** Two cameras with empty catalogs over one fresh world. *)
Definition two_cameras : camera_stream.System Z Image :=
  camera_stream.mkSystem
    [session0;
     camera_stream.init (StreamUrl "http://192.168.6.21:8080/video")
                        [] [] [] (queue.mkQueue 1 [])]
    world0.

End toy.

(** ** Orderings of worlds and sessions used to state invariants *)

Section invariants.
Context {Descriptor Frame : Type}.

(** Nothing that was signalled or recorded in [w] is undone in [w']: the
    stop event stays set once set and the debounce timestamp does not move
    backwards. *)
Definition world_le (w w' : World Descriptor Frame) : Prop :=
  (stop_event w = true -> stop_event w' = true)
  /\ (last_unknown_capture_time w <= last_unknown_capture_time w')%Q.

(** Both queues of a session respect their capacity, the internal one
    being the one-slot queue of [__init__]. *)
Definition queues_ok (s : camera_stream.Session Descriptor Frame) : Prop :=
  queue.maxsize (camera_stream.internal_frame_queue s) = 1%nat
  /\ (length (queue.items (camera_stream.internal_frame_queue s)) <= 1)%nat
  /\ ((0 < queue.maxsize (camera_stream.frame_queue s))%nat ->
      (length (queue.items (camera_stream.frame_queue s))
       <= queue.maxsize (camera_stream.frame_queue s))%nat).

(** [s'] differs from [s] at most in the frame counter, the output queue,
    the labelling variable and the map of log times. *)
Definition touched_by_frame (s s' : camera_stream.Session Descriptor Frame)
    : Prop :=
  exists (n : nat) (q : queue.Queue Frame) (v : option string)
         (m : gmap string Q),
    s' = camera_stream.set_frame_counter
           n (camera_stream.set_frame_queue
                q (camera_stream.set_intruder_id_for_event
                     v (camera_stream.set_last_logged_times m s))).
End invariants.

(** ** More of Python's [str] *)

(** The line feed and the carriage return. *)
Definition LF : ascii := ascii_of_nat 10.
Definition CR : ascii := ascii_of_nat 13.
Definition nl : string := String LF EmptyString.

(** [c * n]. *)
Fixpoint str_repeat (c : ascii) (n : nat) : string :=
  match n with
  | O => EmptyString
  | S n' => String c (str_repeat c n')
  end.

(** [s.ljust(width)]: padded with spaces on the right, never cut. *)
Definition ljust (width : nat) (s : string) : string :=
  s ++ str_repeat " " (width - String.length s).

(** [(before, after) = s.split(sep, 1)] when [sep] occurs in [s]. *)
Definition str_split_once (sep s : string) : option (string * string) :=
  match index 0 sep s with
  | Some n =>
      Some (substring 0 n s,
            substring (n + String.length sep)
                      (String.length s - (n + String.length sep)) s)
  | None => None
  end.

(** What reading a text file line by line yields: the text is cut after
    every line end (a line feed, a carriage return, or the two in this
    order), each of which is handed over as one line feed; a last line
    without line end is kept as it is. *)
Fixpoint readlines_from (acc : string) (s : string) : list string :=
  match s with
  | EmptyString =>
      match acc with
      | EmptyString => []
      | _ => [acc]
      end
  | String c rest =>
      if Ascii.eqb c LF then (acc ++ nl) :: readlines_from EmptyString rest
      else if Ascii.eqb c CR then
        match rest with
        | String c' rest' =>
            if Ascii.eqb c' LF
            then (acc ++ nl) :: readlines_from EmptyString rest'
            else (acc ++ nl) :: readlines_from EmptyString rest
        | EmptyString => [acc ++ nl]
        end
      else readlines_from (acc ++ String c EmptyString) rest
  end.

Definition readlines (s : string) : list string :=
  readlines_from EmptyString s.

(** A text without line ends. *)
Fixpoint one_line (s : string) : Prop :=
  match s with
  | EmptyString => True
  | String c rest => c <> LF /\ c <> CR /\ one_line rest
  end.

(** The text made of the given lines, each closed by a line feed. *)
Fixpoint text_of_lines (ls : list string) : string :=
  match ls with
  | [] => EmptyString
  | l :: rest => l ++ nl ++ text_of_lines rest
  end.

(** ** logging_manager.py

    The log file is its text ([None]: there is no file).  Whether opening
    the file succeeds is an input; a failure is printed and swallowed. *)

Module logging_manager.

(** What [strftime] gives for "%a", "%Y-%m-%d" and "%H:%M:%S". *)
Record Stamp : Type := mkStamp
  { day_str : string;
    date_str : string;
    time_str : string }.

Definition log_header : string :=
  ljust 25 "NAME" ++ " | " ++ ljust 8 "GENDER" ++ " | " ++ ljust 6 "DAY"
  ++ " | " ++ ljust 12 "DATE" ++ " | " ++ ljust 8 "TIME" ++ " | "
  ++ "IMAGE_LINK" ++ nl.

Definition log_separator : string :=
  str_repeat "-" 25 ++ "-+-" ++ str_repeat "-" 8 ++ "-+-"
  ++ str_repeat "-" 6 ++ "-+-" ++ str_repeat "-" 12 ++ "-+-"
  ++ str_repeat "-" 8 ++ "-+-" ++ str_repeat "-" (String.length "IMAGE_LINK")
  ++ nl.

Definition write_log_header_if_needed (open_succeeds : bool)
    (log_file : option string) : option string :=
  let missing_or_empty :=
    match log_file with
    | None => true
    | Some EmptyString => true
    | Some _ => false
    end in
  if missing_or_empty then
    if open_succeeds then Some (log_header ++ log_separator) else log_file
  else log_file.

(** [image_link if image_link else "N/A"]. *)
Definition display_image_link (image_link : option string) : string :=
  match image_link with
  | None => "N/A"
  | Some EmptyString => "N/A"
  | Some link => link
  end.

Definition formatted_entry (now : Stamp) (name gender : string)
    (image_link : option string) : string :=
  ljust 25 name ++ " | " ++ ljust 8 gender ++ " | " ++ ljust 6 (day_str now)
  ++ " | " ++ ljust 12 (date_str now) ++ " | " ++ ljust 8 (time_str now)
  ++ " | " ++ display_image_link image_link ++ nl.

Definition write_log_entry (now : Stamp) (name gender : string)
    (image_link : option string) (open_succeeds : bool)
    (log_file : option string) : option string :=
  if open_succeeds then
    Some (match log_file with
          | Some text => text
          | None => EmptyString
          end ++ formatted_entry now name gender image_link)
  else log_file.

Definition read_log_file (open_succeeds : bool) (log_file : option string)
    : list string :=
  match log_file with
  | None => []
  | Some text => if open_succeeds then readlines text else []
  end.

(** One call of [write_log_entry] with what it was given. *)
Record Entry : Type := mkEntry
  { entry_stamp : Stamp;
    entry_name : string;
    entry_gender : string;
    entry_image_link : option string }.

Definition entry_text (e : Entry) : string :=
  formatted_entry (entry_stamp e) (entry_name e) (entry_gender e)
                  (entry_image_link e).

(** The entry without its closing line feed. *)
Definition entry_line (e : Entry) : string :=
  ljust 25 (entry_name e) ++ " | " ++ ljust 8 (entry_gender e) ++ " | "
  ++ ljust 6 (day_str (entry_stamp e)) ++ " | "
  ++ ljust 12 (date_str (entry_stamp e)) ++ " | "
  ++ ljust 8 (time_str (entry_stamp e)) ++ " | "
  ++ display_image_link (entry_image_link e).

(** The positions of the five column separators in a line. *)
Definition separator_columns : list nat := [26; 37; 46; 61; 72]%nat.

(** The entries written one after the other, every write succeeding. *)
Definition write_all (entries : list Entry) (log_file : option string)
    : option string :=
  fold_left (fun file e =>
               write_log_entry (entry_stamp e) (entry_name e)
                               (entry_gender e) (entry_image_link e) true file)
            entries log_file.

(** None of the texts that go into the entry holds a line end. *)
Definition entry_one_line (e : Entry) : Prop :=
  one_line (entry_name e) /\ one_line (entry_gender e)
  /\ one_line (day_str (entry_stamp e)) /\ one_line (date_str (entry_stamp e))
  /\ one_line (time_str (entry_stamp e))
  /\ one_line (display_image_link (entry_image_link e)).

(** Every text fits the width of its column. *)
Definition entry_fits (e : Entry) : Prop :=
  (String.length (entry_name e) <= 25)%nat
  /\ (String.length (entry_gender e) <= 8)%nat
  /\ (String.length (day_str (entry_stamp e)) <= 6)%nat
  /\ (String.length (date_str (entry_stamp e)) <= 12)%nat
  /\ (String.length (time_str (entry_stamp e)) <= 8)%nat.

End logging_manager.

(** ** face_data_manager.py

    The encodings file is its content, a pair of lists ([None]: missing,
    empty or unreadable).  [lower] stands for [str.lower]. *)

Module face_data_manager.
Section defs.
Context {Descriptor : Type}.
Variable lower : string -> string.

(** Lines 29-39: the gender read off a stored name. *)
Definition gender_of (name_with_gender : string) : string :=
  if str_contains "__" name_with_gender then
    match str_split_once "__" name_with_gender with
    | Some (_, gender) => lower gender
    | None => "unknown"
    end
  else "unknown".

Definition load_known_face_encodings
    (encodings_file : option (list Descriptor * list string))
    : list Descriptor * list string * list string :=
  match encodings_file with
  | Some (known_face_encodings, known_face_names) =>
      (known_face_encodings, known_face_names,
       map gender_of known_face_names)
  | None => ([], [], [])
  end.

(** Lines 155-197 of [delete_person_from_encodings]: the part that
    rewrites the encodings file.  The result is the number of entries
    removed and the file as saved; the removal of image folders that
    follows does not touch the file. *)
Definition delete_person_entries (person_to_remove : string)
    (encodings_file : option (list Descriptor * list string))
    : Result (nat * option (list Descriptor * list string)) :=
  let '(known_face_encodings, known_face_names, _) :=
    load_known_face_encodings encodings_file in
  let person_base_name := str_split_head "__" person_to_remove in
  let names_in_encodings_to_filter_out :=
    List.filter
      (fun name_in_list =>
         String.eqb name_in_list person_to_remove
         || String.eqb (str_split_head "__" name_in_list) person_base_name)
      known_face_names in
  if negb (py_truthy names_in_encodings_to_filter_out) then Raise ValueError
  else
    let kept :=
      List.filter
        (fun en =>
           negb (existsb (String.eqb (snd en))
                         names_in_encodings_to_filter_out))
        (zip known_face_encodings known_face_names) in
    let removed_encoding_count :=
      length (List.filter
                (fun en =>
                   existsb (String.eqb (snd en))
                           names_in_encodings_to_filter_out)
                (zip known_face_encodings known_face_names)) in
    Ok (removed_encoding_count, Some (map fst kept, map snd kept)).
End defs.

(** The entry [name] is one that deleting [person] removes: it is the very
    text given, or it has the same text in front of its first double
    underscore. *)
Definition same_person (person name : string) : bool :=
  String.eqb name person
  || String.eqb (str_split_head "__" name) (str_split_head "__" person).

End face_data_manager.

(** ** A run of resolutions of unknown faces

    Each one is the handling of an unknown face by some processing loop:
    its camera, its clock readings, the frame, the descriptor and what the
    loop's labelling variable holds. *)

Record Sighting (Descriptor Frame : Type) : Type := mkSighting
  { sighting_camera : CameraInput;
    sighting_clock : camera_stream.Clock;
    sighting_frame : Frame;
    sighting_descriptor : Descriptor;
    sighting_variable : option string }.
Arguments mkSighting {Descriptor Frame} _ _ _ _ _.
Arguments sighting_camera {Descriptor Frame} _.
Arguments sighting_clock {Descriptor Frame} _.
Arguments sighting_frame {Descriptor Frame} _.
Arguments sighting_descriptor {Descriptor Frame} _.
Arguments sighting_variable {Descriptor Frame} _.

Section sightings.
Context {Descriptor Frame : Type}.
Context `{!FaceMetric Descriptor} `{!Vision Frame Descriptor}.

Definition handle_sighting (w : World Descriptor Frame)
    (x : Sighting Descriptor Frame) : World Descriptor Frame :=
  snd (camera_stream.intruder_event_management
         (sighting_camera x) (sighting_clock x) (sighting_frame x)
         (sighting_descriptor x) (sighting_variable x) w).

Definition handle_sightings (xs : list (Sighting Descriptor Frame))
    (w : World Descriptor Frame) : World Descriptor Frame :=
  fold_left handle_sighting xs w.

(** The clock reading of the sighting lies in the window that starts at
    [t0]. *)
Definition in_window (t0 : Q) (x : Sighting Descriptor Frame) : Prop :=
  (t0 <= camera_stream.time_time (sighting_clock x))%Q
  /\ (camera_stream.time_time (sighting_clock x)
      < t0 + config.UNKNOWN_CAPTURE_DEBOUNCE_TIME)%Q.
End sightings.

(** ** More concrete inputs for running the model *)

Module toy_more.

(** A camera whose frames are either clear or garbled; the detector raises
    on a garbled frame and finds nothing in a clear one. *)
Inductive Probe : Type :=
| Clear
| Garbled.

#[global] Instance probe_vision : Vision Probe Z :=
  {| resize_quarter img := img;
     cvtColor_BGR2RGB img := img;
     frame_is_empty img := false;
     face_locations img :=
       match img with
       | Clear => Ok []
       | Garbled => Raise LibraryError
       end;
     face_encodings img boxes := Ok [];
     rectangle img _ _ _ _ := img;
     putText img _ _ _ _ _ := img;
     getTextSize _ _ _ := (400, 20)%Z |}.

(** Camera 0 is about to process its fourth frame, a garbled one; camera 1
    is reading. *)
Definition garbled_session : camera_stream.Session Z Probe :=
  camera_stream.set_internal_frame_queue
    (queue.mkQueue 1 [Garbled])
    (camera_stream.set_frame_counter
       3 (camera_stream.set_processing_thread
            camera_stream.Alive
            (camera_stream.init (UsbIndex 0) [] [] [] (queue.mkQueue 1 [])))).

Definition reading_session : camera_stream.Session Z Probe :=
  camera_stream.set_cap
    (camera_stream.VideoCapture true)
    (camera_stream.set_reader_thread
       camera_stream.Alive
       (camera_stream.init (UsbIndex 1) [] [] [] (queue.mkQueue 1 []))).

Definition garbled_system : camera_stream.System Z Probe :=
  camera_stream.mkSystem [garbled_session; reading_session] fresh_world.

(** A registry file that lost its ids. *)
Definition world_without_ids : World Z toy.Image :=
  mkWorld (Some ([7%Z], [])) 0 false [].

(** A frame with one face that is 10 pixels high and wide. *)
Definition tiny_face : toy.Image :=
  toy.mkImage [((0, 10, 10, 0)%Z, 5%Z)] [].

Definition monday : logging_manager.Stamp :=
  logging_manager.mkStamp "Mon" "2025-01-06" "14:30:55".

Definition entry_alice : logging_manager.Entry :=
  logging_manager.mkEntry monday "Alice" "female" None.

Definition entry_intruder : logging_manager.Entry :=
  logging_manager.mkEntry monday "Intruder_1" "Intruder"
                          (Some "intruders/intruder_20250106_143055_000001.jpg").

(** Three sightings of strangers within ten seconds, on two cameras. *)
Definition three_sightings : list (Sighting Z toy.Image) :=
  [mkSighting toy.webcam (toy.clock_at 1000) (toy.portrait 7) 7%Z None;
   mkSighting (UsbIndex 1) (toy.clock_at 1004) (toy.portrait 90) 90%Z None;
   mkSighting toy.webcam (toy.clock_at 1009) (toy.portrait 50) 50%Z
              (Some "Intruder_1")].

(** [str.lower] on the letters A to Z. *)
Definition ascii_lower (c : ascii) : ascii :=
  let n := nat_of_ascii c in
  if ((65 <=? n) && (n <=? 90))%nat then ascii_of_nat (n + 32) else c.

Fixpoint lower (s : string) : string :=
  match s with
  | EmptyString => EmptyString
  | String c rest => String (ascii_lower c) (lower rest)
  end.

End toy_more.

(** * Properties *)

Local Open Scope list_scope.

(** ** Nearest-neighbour matching *)

Section face_match_facts.
Context {Descriptor Label : Type} `{!FaceMetric Descriptor}.
Implicit Types (d : Descriptor) (R : list (Descriptor * Label)).

Lemma Qle_bool_false (x y : Q) : Qle_bool x y = false -> (y < x)%Q.
Proof.
  intros Hb. apply Qnot_le_lt. intros Hle.
  apply Qle_bool_iff in Hle. congruence.
Qed.

Lemma nearest_from_In d best R :
  nearest_from d best R = best \/ In (nearest_from d best R) R.
Proof.
  revert best. induction R as [|p R IH]; intros best; simpl; [by left|].
  destruct (Qle_bool _ _).
  - destruct (IH best) as [->|Hin]; [by left | right; by right].
  - destruct (IH p) as [->|Hin]; right; [by left | by right].
Qed.

Lemma nearest_from_le_best d best R :
  (norm_diff (fst (nearest_from d best R)) d <= norm_diff (fst best) d)%Q.
Proof.
  revert best. induction R as [|p R IH]; intros best; simpl; [apply Qle_refl|].
  destruct (Qle_bool _ _) eqn:Hb; [apply IH|].
  apply Qle_bool_false in Hb.
  eapply Qle_trans; [apply IH | by apply Qlt_le_weak].
Qed.

Lemma nearest_from_le_all d best R :
  Forall (fun p => (norm_diff (fst (nearest_from d best R)) d
                    <= norm_diff (fst p) d)%Q) R.
Proof.
  revert best. induction R as [|p R IH]; intros best; simpl; [constructor|].
  destruct (Qle_bool _ _) eqn:Hb; constructor; try apply IH.
  - apply Qle_bool_iff in Hb.
    eapply Qle_trans; [apply nearest_from_le_best | exact Hb].
  - apply nearest_from_le_best.
Qed.

(** [np.argmin] over the distances points at the entry [nearest_from]
    selects. *)
Lemma argmin_from_nearest d best R (bi i : nat) :
  (bi < i)%nat ->
  let j := np.argmin_from bi (norm_diff (fst best) d) i
             (map (fun p => norm_diff (fst p) d) R) in
  (j = bi /\ nearest_from d best R = best)
  \/ ((i <= j)%nat /\ R !! (j - i)%nat = Some (nearest_from d best R)).
Proof.
  revert best bi i. induction R as [|p R IH]; intros best bi i Hlt; simpl.
  - by left.
  - destruct (Qle_bool _ _).
    + destruct (IH best bi (S i)) as [[Hj Hn]|[Hj Hn]]; [lia | by left |].
      right. split; [lia|].
      replace (np.argmin_from _ _ _ _ - i)%nat
        with (S (np.argmin_from bi (norm_diff (fst best) d) (S i)
                   (map (fun p => norm_diff (fst p) d) R) - S i))%nat by lia.
      exact Hn.
    + destruct (IH p i (S i)) as [[Hj Hn]|[Hj Hn]]; [lia | |].
      * right. rewrite Hj, Hn. split; [lia|]. by rewrite Nat.sub_diag.
      * right. split; [lia|].
        replace (np.argmin_from _ _ _ _ - i)%nat
          with (S (np.argmin_from i (norm_diff (fst p) d) (S i)
                     (map (fun p => norm_diff (fst p) d) R) - S i))%nat by lia.
        exact Hn.
Qed.

Lemma argmin_nearest d p R :
  exists j, np.argmin (face_recognition.face_distance (map fst (p :: R)) d)
            = Ok j
            /\ (p :: R) !! j = Some (nearest_from d p R).
Proof.
  unfold face_recognition.face_distance. simpl. eexists. split; [reflexivity|].
  rewrite map_map.
  destruct (argmin_from_nearest d p R 0 1) as [[Hj Hn]|[Hj Hn]]; [lia | |].
  - rewrite Hj, Hn. reflexivity.
  - set (j := np.argmin_from _ _ _ _) in *.
    destruct j as [|j]; [lia|]. simpl in *.
    by rewrite Nat.sub_0_r in Hn.
Qed.

Lemma nearest_elem d p R : In (nearest_from d p R) (p :: R).
Proof. destruct (nearest_from_In d p R) as [->|?]; [by left | by right]. Qed.

Lemma nearest_minimal d p R :
  Forall (fun q => (norm_diff (fst (nearest_from d p R)) d
                    <= norm_diff (fst q) d)%Q) (p :: R).
Proof.
  constructor; [apply nearest_from_le_best | apply nearest_from_le_all].
Qed.

(** Some entry is within tolerance exactly when the nearest one is. *)
Lemma any_match_iff_nearest (tol : Q) d p R :
  existsb (fun m : bool => m)
          (face_recognition.compare_faces (map fst (p :: R)) d tol)
  = Qle_bool (norm_diff (fst (nearest_from d p R)) d) tol.
Proof.
  unfold face_recognition.compare_faces, face_recognition.face_distance.
  rewrite !map_map.
  destruct (Qle_bool (norm_diff _ d) tol) eqn:Hn.
  - apply existsb_exists. exists true. split; [|done].
    apply in_map_iff. exists (nearest_from d p R).
    split; [exact Hn | apply nearest_elem].
  - apply not_true_is_false. intros Hex.
    apply existsb_exists in Hex as (m & Hin & ->).
    apply in_map_iff in Hin as (q & Hq & Hin).
    apply Qle_bool_iff in Hq.
    pose proof (nearest_minimal d p R) as Hmin.
    rewrite List.Forall_forall in Hmin. specialize (Hmin q Hin).
    assert (Hle : Qle_bool (norm_diff (fst (nearest_from d p R)) d) tol = true).
    { apply Qle_bool_iff. eapply Qle_trans; eassumption. }
    congruence.
Qed.

(** What [face_match] returns: an entry of the reference set that is
    within tolerance and nearest, or nothing when every entry is too far. *)
Lemma face_match_sound (tol : Q) d R :
  match face_match tol d R with
  | Some p =>
      In p R /\ (norm_diff (fst p) d <= tol)%Q
      /\ Forall (fun q => (norm_diff (fst p) d <= norm_diff (fst q) d)%Q) R
  | None => Forall (fun q => (tol < norm_diff (fst q) d)%Q) R
  end.
Proof.
  unfold face_match, nearest. destruct R as [|p R]; [constructor|].
  destruct (Qle_bool _ tol) eqn:Hb.
  - split; [apply nearest_elem|]. split; [by apply Qle_bool_iff|].
    apply nearest_minimal.
  - apply Qle_bool_false in Hb.
    eapply Forall_impl; [apply nearest_minimal|].
    intros q Hq. simpl in Hq. eapply Qlt_le_trans; eassumption.
Qed.
End face_match_facts.

(** ** C1: the two matchers of the code against [face_match] *)

Section matchers.
Context {Descriptor Frame : Type}.
Context `{!FaceMetric Descriptor} `{!Vision Frame Descriptor}.

Lemma lookup_map {A B : Type} (f : A -> B) (l : list A) (i : nat) (x : A) :
  l !! i = Some x -> map f l !! i = Some (f x).
Proof.
  revert i. induction l as [|a l IH]; intros [|i] Hl; simpl in *;
    try discriminate.
  - by injection Hl as ->.
  - by apply IH.
Qed.

Lemma py_index_map {A B : Type} (f : A -> B) (l : list A) (i : nat) (x : A) :
  l !! i = Some x -> py_index (map f l) i = Ok (f x).
Proof. intros Hl. unfold py_index. by rewrite (lookup_map f l i x Hl). Qed.

Lemma recognize_face_match (s : camera_stream.Session Descriptor Frame)
    (K : list (Descriptor * (string * string))) (d : Descriptor) :
  camera_stream.known_face_encodings s = map fst K ->
  camera_stream.known_face_names s = map (fun p => fst (snd p)) K ->
  camera_stream.known_face_genders s = map (fun p => snd (snd p)) K ->
  camera_stream.recognize s d
  = Ok (match face_match (camera_stream.recognition_tolerance s) d K with
        | Some p => known_label p
        | None => ("Unknown", "Intruder", "Unknown")
        end).
Proof.
  intros He Hn Hg. unfold camera_stream.recognize. rewrite He, Hn, Hg.
  destruct K as [|p K]; [reflexivity|].
  change (py_truthy (map fst (p :: K))) with true. cbv iota.
  replace (0 <? length (face_recognition.face_distance (map fst (p :: K)) d))%nat
    with true by reflexivity.
  destruct (argmin_nearest d p K) as (j & -> & Hj).
  cbn [mbind Result_bind].
  unfold face_recognition.compare_faces, face_recognition.face_distance.
  rewrite !map_map.
  rewrite (py_index_map
             (fun x : Descriptor * (string * string) =>
                Qle_bool (norm_diff (fst x) d)
                         (camera_stream.recognition_tolerance s)) _ _ _ Hj).
  cbn [mbind Result_bind].
  unfold face_match, nearest.
  destruct (Qle_bool _ _); [|reflexivity].
  rewrite (py_index_map (fun p : Descriptor * (string * string) =>
                           fst (snd p)) _ _ _ Hj).
  rewrite (py_index_map (fun p : Descriptor * (string * string) =>
                           snd (snd p)) _ _ _ Hj).
  reflexivity.
Qed.

Lemma match_or_add_face_match (R : list (Descriptor * string))
    (d : Descriptor) (tol : Q) (w : World Descriptor Frame) :
  registry w = (map fst R, map snd R) ->
  intruder_tracker.match_or_add_intruder d tol w
  = match face_match tol d R with
    | Some p => (Ok (snd p), emit LoadIntruderDb w)
    | None =>
        let new_id := intruder_name (length R + 1) in
        (Ok new_id,
         intruder_tracker.save_intruder_db
           (map fst R ++ [d]) (map snd R ++ [new_id])
           (emit LoadIntruderDb w))
    end.
Proof.
  unfold registry. intros Hf.
  unfold intruder_tracker.match_or_add_intruder.
  destruct (intruder_tracker.load_intruder_db w) as [[encs0 ids0] w1] eqn:Hl.
  simpl in Hf. injection Hf as -> ->.
  assert (w1 = emit LoadIntruderDb w) as ->.
  { unfold intruder_tracker.load_intruder_db in Hl. congruence. }
  destruct R as [|p R]; [reflexivity|].
  change (py_truthy (map fst (p :: R))) with true. cbv iota.
  rewrite any_match_iff_nearest.
  unfold face_match, nearest.
  destruct (Qle_bool _ _).
  - destruct (argmin_nearest d p R) as (j & -> & Hj).
    cbn [mbind Result_bind].
    by rewrite (py_index_map _ _ _ _ Hj).
  - by rewrite length_map.
Qed.

(** C1.  For every descriptor and every reference set, both matchers of
    the code return what the specified face match returns: the catalog
    lookup of a session built over the catalog [K] yields the labels of the
    nearest entry when it is within the configured tolerance 0.6 and the
    "Unknown" defaults otherwise; the registry lookup yields the id of the
    nearest record when it is within the threshold and takes the no-match
    branch otherwise.  The specified match itself returns an entry of the
    set that is within tolerance and at minimum distance, or nothing when
    the set is empty or every entry is beyond the tolerance. *)
Theorem face_match_engine
    (d : Descriptor) (K : list (Descriptor * (string * string)))
    (R : list (Descriptor * string)) (tol : Q)
    (camera : CameraInput) (display_queue : queue.Queue Frame)
    (last : Q) (stop : bool) (tr : list (Effect Descriptor Frame)) :
  camera_stream.recognize
    (camera_stream.init camera (map fst K) (map (fun p => fst (snd p)) K)
                        (map (fun p => snd (snd p)) K) display_queue) d
  = Ok (match face_match config.RECOGNITION_TOLERANCE d K with
        | Some p => known_label p
        | None => ("Unknown", "Intruder", "Unknown")
        end)
  /\ fst (intruder_tracker.match_or_add_intruder d tol
            (mkWorld (Some (map fst R, map snd R)) last stop tr))
     = Ok (match face_match tol d R with
           | Some p => snd p
           | None => intruder_name (length R + 1)
           end)
  /\ match face_match tol d R with
     | Some p =>
         In p R /\ (norm_diff (fst p) d <= tol)%Q
         /\ Forall (fun q => (norm_diff (fst p) d <= norm_diff (fst q) d)%Q) R
     | None => Forall (fun q => (tol < norm_diff (fst q) d)%Q) R
     end
  /\ match face_match config.RECOGNITION_TOLERANCE d K with
     | Some p =>
         In p K /\ (norm_diff (fst p) d <= config.RECOGNITION_TOLERANCE)%Q
         /\ Forall (fun q => (norm_diff (fst p) d <= norm_diff (fst q) d)%Q) K
     | None =>
         Forall (fun q => (config.RECOGNITION_TOLERANCE
                           < norm_diff (fst q) d)%Q) K
     end
  /\ face_match tol d (@nil (Descriptor * string)) = None.
Proof.
  split; [|split; [|split; [|split]]].
  - by apply recognize_face_match.
  - rewrite (match_or_add_face_match R) by reflexivity.
    by destruct (face_match tol d R).
  - apply face_match_sound.
  - apply face_match_sound.
  - reflexivity.
Qed.
End matchers.

(** ** C10 and C3: the registry *)

Section registry_facts.
Context {Descriptor Frame : Type} `{!FaceMetric Descriptor}.
Implicit Types (w : World Descriptor Frame) (d : Descriptor).

Lemma face_match_some_of_exists {Label : Type} (tol : Q) d
    (R : list (Descriptor * Label)) :
  Exists (fun q => (norm_diff (fst q) d <= tol)%Q) R ->
  exists p, face_match tol d R = Some p.
Proof.
  intros Hex. pose proof (face_match_sound tol d R) as Hs.
  destruct (face_match tol d R) as [p|]; [by exists p|].
  exfalso. apply List.Exists_exists in Hex as (q & Hin & Hq).
  rewrite List.Forall_forall in Hs. specialize (Hs q Hin).
  apply (Qlt_not_le _ _ Hs Hq).
Qed.

(** C10.  When the descriptor is within the threshold of at least one
    record of the registry, [match_or_add_intruder] returns the id of a
    record that is at minimum distance and within the threshold; the only
    thing it does to the world is read the registry file: the file keeps
    its content, nothing is appended to it and no save is issued. *)
Theorem match_leaves_registry_unchanged
    (R : list (Descriptor * string)) d (tol : Q) w :
  intruder_file w = Some (map fst R, map snd R) ->
  Exists (fun q => (norm_diff (fst q) d <= tol)%Q) R ->
  exists p,
    In p R
    /\ (norm_diff (fst p) d <= tol)%Q
    /\ Forall (fun q => (norm_diff (fst p) d <= norm_diff (fst q) d)%Q) R
    /\ intruder_tracker.match_or_add_intruder d tol w
       = (Ok (snd p), emit LoadIntruderDb w)
    /\ intruder_file (snd (intruder_tracker.match_or_add_intruder d tol w))
       = intruder_file w
    /\ trace (snd (intruder_tracker.match_or_add_intruder d tol w))
       = (trace w ++ [LoadIntruderDb])%list.
Proof.
  intros Hf Hex.
  destruct (face_match_some_of_exists tol d R Hex) as (p & Hp).
  pose proof (face_match_sound tol d R) as Hs. rewrite Hp in Hs.
  destruct Hs as (Hin & Hle & Hmin).
  assert (Hr : registry w = (map fst R, map snd R)).
  { unfold registry, intruder_tracker.load_intruder_db. by rewrite Hf. }
  rewrite (match_or_add_face_match R d tol w Hr), Hp.
  exists p. repeat split; assumption.
Qed.

Lemma no_match_when_all_far (tol : Q) d (encodings : list Descriptor) :
  Forall (fun e => (tol < norm_diff e d)%Q) encodings ->
  existsb (fun m : bool => m)
          (face_recognition.compare_faces encodings d tol) = false.
Proof.
  unfold face_recognition.compare_faces, face_recognition.face_distance.
  induction 1 as [|e l He _ IH]; [reflexivity|]. simpl. rewrite IH.
  destruct (Qle_bool _ _) eqn:Hb; [|reflexivity].
  apply Qle_bool_iff in Hb. destruct (Qlt_not_le _ _ He Hb).
Qed.

Lemma match_or_add_novel (tol : Q) d w (encodings : list Descriptor)
    (ids : list string) :
  registry w = (encodings, ids) ->
  Forall (fun e => (tol < norm_diff e d)%Q) encodings ->
  intruder_tracker.match_or_add_intruder d tol w
  = (Ok (intruder_name (length ids + 1)),
     intruder_tracker.save_intruder_db
       (encodings ++ [d])%list
       (ids ++ [intruder_name (length ids + 1)])%list
       (emit LoadIntruderDb w)).
Proof.
  unfold registry. intros Hr Hfar.
  unfold intruder_tracker.match_or_add_intruder.
  destruct (intruder_tracker.load_intruder_db w) as [[encs0 ids0] w1] eqn:Hl.
  simpl in Hr. injection Hr as -> ->.
  assert (w1 = emit LoadIntruderDb w) as ->.
  { unfold intruder_tracker.load_intruder_db in Hl. congruence. }
  rewrite (no_match_when_all_far tol d encodings Hfar).
  by destruct (py_truthy encodings).
Qed.

Lemma registry_after_save w (encodings : list Descriptor) (ids : list string) :
  registry (intruder_tracker.save_intruder_db encodings ids w)
  = (encodings, ids).
Proof. reflexivity. Qed.

Lemma intruder_ids_length (n : nat) : length (intruder_ids n) = n.
Proof. unfold intruder_ids. by rewrite length_map, length_seq. Qed.

Lemma intruder_ids_S (n : nat) :
  intruder_ids (S n)
  = (intruder_ids n ++ [intruder_name (n + 1)])%list.
Proof.
  unfold intruder_ids. rewrite seq_S, map_app. simpl.
  by rewrite (Nat.add_comm n 1).
Qed.

Lemma str_of_nat_inj (a b : nat) : str_of_nat a = str_of_nat b -> a = b.
Proof.
  unfold str_of_nat. intros Heq.
  assert (Some (Nat.to_uint a) = Some (Nat.to_uint b)) as Hu.
  { rewrite <- !NilEmpty.usu. by rewrite Heq. }
  injection Hu as Hu.
  rewrite <- (Unsigned.of_to a), <- (Unsigned.of_to b). by rewrite Hu.
Qed.

Lemma append_cancel_l (p x y : string) : (p ++ x = p ++ y)%string -> x = y.
Proof.
  induction p as [|c p IH]; simpl; [done|].
  intros Heq. injection Heq as Heq. by apply IH.
Qed.

Lemma intruder_name_inj (a b : nat) : intruder_name a = intruder_name b -> a = b.
Proof.
  unfold intruder_name. intros Heq.
  by apply str_of_nat_inj, (append_cancel_l "Intruder_").
Qed.

Lemma intruder_ids_NoDup (n : nat) : List.NoDup (intruder_ids n).
Proof.
  unfold intruder_ids. apply Finite.Injective_map_NoDup; [|apply seq_NoDup].
  intros a b. apply intruder_name_inj.
Qed.

Lemma resolve_all_novel (tol : Q) (ds encodings : list Descriptor) w :
  registry w = (encodings, intruder_ids (length encodings)) ->
  never_seen tol encodings ds ->
  fst (resolve_all ds tol w)
  = map (fun k => Ok (intruder_name k))
        (seq (length encodings + 1) (length ds))
  /\ registry (snd (resolve_all ds tol w))
     = ((encodings ++ ds)%list, intruder_ids (length encodings + length ds))
  /\ trace (snd (resolve_all ds tol w))
     = (trace w ++ enrolment_trace encodings ds)%list.
Proof.
  revert encodings w. induction ds as [|d ds IH]; intros encodings w Hr Hn.
  - cbn [resolve_all fst snd length seq map].
    unfold enrolment_trace. cbn [length seq flat_map].
    rewrite !app_nil_r, Nat.add_0_r. done.
  - destruct Hn as [Hfar Hrest]. cbn [resolve_all].
    rewrite (match_or_add_novel tol d w _ _ Hr Hfar).
    rewrite intruder_ids_length.
    set (w1 := intruder_tracker.save_intruder_db _ _ _).
    assert (Hlen : length (encodings ++ [d]) = S (length encodings)).
    { rewrite length_app. simpl. lia. }
    specialize (IH (encodings ++ [d]) w1).
    destruct (resolve_all ds tol w1) as [rs w2] eqn:Hres.
    cbn [fst snd] in *.
    destruct IH as (IH1 & IH2 & IH3).
    { unfold w1. rewrite registry_after_save, Hlen, intruder_ids_S.
      reflexivity. }
    { exact Hrest. }
    rewrite Hlen in IH1, IH2.
    split; [|split].
    + rewrite IH1, !Nat.add_1_r. reflexivity.
    + rewrite IH2, <- app_assoc. cbn [length app].
      by rewrite Nat.add_succ_r.
    + rewrite IH3. unfold w1, intruder_tracker.save_intruder_db.
      cbn [emit trace write_intruder_file].
      rewrite <- !app_assoc. f_equal.
      unfold enrolment_trace. rewrite Hlen, !Nat.add_1_r.
      cbn [length seq flat_map app].
      rewrite intruder_ids_S, Nat.add_1_r.
      replace (encodings ++ d :: ds) with ((encodings ++ [d]) ++ ds)
        by (by rewrite <- app_assoc).
      rewrite <- Hlen at 3. by rewrite take_app_length.
Qed.

(** C3.  Starting from an empty registry, resolving [N] descriptors one at
    a time, each farther than the threshold from every record already
    present, returns "Intruder_1", ..., "Intruder_N" in this order, with no
    repeats; the registry then holds exactly these descriptors with these
    ids, and the k-th resolution saved the registry of the first k records
    before the next one started. *)
Theorem sequential_intruder_ids (tol : Q) (ds : list Descriptor) w :
  registry w = ([], []) ->
  never_seen tol [] ds ->
  fst (resolve_all ds tol w) = map Ok (intruder_ids (length ds))
  /\ List.NoDup (intruder_ids (length ds))
  /\ registry (snd (resolve_all ds tol w)) = (ds, intruder_ids (length ds))
  /\ trace (snd (resolve_all ds tol w))
     = trace w
       ++ flat_map (fun k => [LoadIntruderDb;
                              SaveIntruderDb (take k ds) (intruder_ids k)])
                   (seq 1 (length ds)).
Proof.
  intros Hr Hn.
  destruct (resolve_all_novel tol ds [] w Hr Hn) as (H1 & H2 & H3).
  split; [|split; [|split]].
  - rewrite H1. unfold intruder_ids. by rewrite map_map.
  - apply intruder_ids_NoDup.
  - exact H2.
  - exact H3.
Qed.
End registry_facts.

Lemma sequential_intruder_ids_witness :
  fst (resolve_all [0; 20; 40]%Z config.RECOGNITION_TOLERANCE toy.world0)
  = [Ok "Intruder_1"; Ok "Intruder_2"; Ok "Intruder_3"]
  /\ registry (snd (resolve_all [0; 20; 40]%Z config.RECOGNITION_TOLERANCE
                               toy.world0))
     = ([0; 20; 40]%Z, ["Intruder_1"; "Intruder_2"; "Intruder_3"]).
Proof.
  assert (Hn : never_seen (Descriptor := Z) config.RECOGNITION_TOLERANCE []
                          [0; 20; 40]%Z).
  { simpl. repeat split; repeat constructor. }
  destruct (sequential_intruder_ids config.RECOGNITION_TOLERANCE
              [0; 20; 40]%Z toy.world0 eq_refl Hn) as (H1 & _ & H3 & _).
  split; [exact H1 | exact H3].
Defined.

Lemma match_leaves_registry_unchanged_witness :
  exists p : Z * string,
    intruder_tracker.match_or_add_intruder
      3%Z config.RECOGNITION_TOLERANCE
      (mkWorld (Frame := toy.Image)
               (Some ([0; 20]%Z, ["Intruder_1"; "Intruder_2"])) 0 false [])
    = (Ok (snd p),
       emit LoadIntruderDb
         (mkWorld (Some ([0; 20]%Z, ["Intruder_1"; "Intruder_2"])) 0 false [])).
Proof.
  destruct (match_leaves_registry_unchanged
              (Frame := toy.Image)
              [(0%Z, "Intruder_1"); (20%Z, "Intruder_2")] 3%Z
              config.RECOGNITION_TOLERANCE
              (mkWorld (Some ([0; 20]%Z, ["Intruder_1"; "Intruder_2"]))
                       0 false []) eq_refl)
    as (p & _ & _ & _ & Hp & _).
  - apply Exists_cons_hd. vm_compute. discriminate.
  - exists p. exact Hp.
Defined.


(** ** C2 and C9: the gate for unknown faces *)

Section unknown_gate.
Context {Descriptor Frame : Type}.
Context `{!FaceMetric Descriptor} `{!Vision Frame Descriptor}.
Implicit Types (w : World Descriptor Frame) (d : Descriptor) (f : Frame).
Implicit Types (clk : camera_stream.Clock) (v : option string).

Lemma gate_open (now : Q) w :
  (config.UNKNOWN_CAPTURE_DEBOUNCE_TIME
   <= now - last_unknown_capture_time w)%Q ->
  camera_stream.unknown_capture_debounce now w
  = (true, set_last_unknown_capture_time now w).
Proof.
  intros Hle. unfold camera_stream.unknown_capture_debounce.
  apply Qle_bool_iff in Hle. by rewrite Hle.
Qed.

Lemma gate_closed (now : Q) w :
  (now - last_unknown_capture_time w
   < config.UNKNOWN_CAPTURE_DEBOUNCE_TIME)%Q ->
  camera_stream.unknown_capture_debounce now w = (false, w).
Proof.
  intros Hlt. unfold camera_stream.unknown_capture_debounce.
  destruct (Qle_bool _ _) eqn:Hb; [|reflexivity].
  apply Qle_bool_iff in Hb. destruct (Qlt_not_le _ _ Hlt Hb).
Qed.

Lemma registry_ok_pairs w :
  registry_ok w -> exists R : list (Descriptor * string),
    registry w = (map fst R, map snd R).
Proof.
  unfold registry_ok. destruct (registry w) as [encs ids]. simpl.
  intros Hlen. exists (zip encs ids). f_equal.
  - symmetry. apply fst_zip. lia.
  - symmetry. apply snd_zip. lia.
Qed.

Lemma occurrences_app (k : EventPart) (t1 t2 : list (Effect Descriptor Frame)) :
  occurrences k (t1 ++ t2) = (occurrences k t1 + occurrences k t2)%nat.
Proof. unfold occurrences. by rewrite List.filter_app, length_app. Qed.

(** With a well-formed registry the resolution never raises; it reads the
    file once, possibly saves, and leaves the registry well formed. *)
Lemma match_or_add_ok d (tol : Q) w :
  registry_ok w ->
  exists (id : string) (saved : list (Effect Descriptor Frame)) w1,
    intruder_tracker.match_or_add_intruder d tol w = (Ok id, w1)
    /\ trace w1 = trace w ++ LoadIntruderDb :: saved
    /\ (forall k, occurrences k saved = 0%nat)
    /\ registry_ok w1
    /\ last_unknown_capture_time w1 = last_unknown_capture_time w
    /\ stop_event w1 = stop_event w.
Proof.
  intros Hok. destruct (registry_ok_pairs w Hok) as (R & HR).
  rewrite (match_or_add_face_match R d tol w HR).
  destruct (face_match tol d R) as [p|].
  - exists (snd p), [], (emit LoadIntruderDb w).
    repeat split; try reflexivity. exact Hok.
  - eexists _, [_], _. split; [reflexivity|].
    split; [cbn; by rewrite <- app_assoc|].
    split; [by intros []|].
    split; [|done].
    unfold registry_ok. rewrite registry_after_save. simpl.
    rewrite !length_app, !length_map. reflexivity.
Qed.

(** A full event: each of its four parts occurs once more in the trace. *)
Lemma full_event_effects (camera : CameraInput) clk f d v w :
  registry_ok w ->
  exists (id : string) w1,
    camera_stream.full_intruder_event camera clk f d v w = (Some id, w1)
    /\ (forall k, occurrences k (trace w1) = S (occurrences k (trace w)))
    /\ registry_ok w1
    /\ last_unknown_capture_time w1 = last_unknown_capture_time w
    /\ (exists (w0 : World Descriptor Frame),
          intruder_tracker.match_or_add_intruder
            d config.RECOGNITION_TOLERANCE w = (Ok id, w0)
          /\ trace w1
             = trace w0
               ++ [ImWrite (camera_stream.capture_path
                              (camera_stream.capture_stamp clk)) f;
                   WriteLogEntry id "Intruder"
                     (Some (camera_stream.capture_path
                              (camera_stream.capture_stamp clk)));
                   SendAlert (camera_stream.capture_path
                                (camera_stream.capture_stamp clk))
                             (camera_stream.alert_stamp clk)
                             (str_of_camera camera)]).
Proof.
  intros Hok.
  destruct (match_or_add_ok d config.RECOGNITION_TOLERANCE w Hok)
    as (id & saved & w0 & Hm & Htr & Hsaved & Hok0 & Hlast & _).
  unfold camera_stream.full_intruder_event. rewrite Hm.
  eexists id, _. split; [reflexivity|].
  split; [|split; [|split]].
  - intros k. cbn [emit trace]. rewrite Htr, <- !app_assoc.
    rewrite !occurrences_app. change (LoadIntruderDb :: saved)
      with ([LoadIntruderDb] ++ saved).
    rewrite occurrences_app, Hsaved.
    destruct k; cbn; lia.
  - exact Hok0.
  - exact Hlast.
  - exists w0. split; [reflexivity|]. cbn [emit trace].
    by rewrite <- !app_assoc.
Qed.

Lemma event_allowed (camera : CameraInput) clk f d v w :
  registry_ok w ->
  (config.UNKNOWN_CAPTURE_DEBOUNCE_TIME
   <= camera_stream.time_time clk - last_unknown_capture_time w)%Q ->
  exists (id : string) w1,
    camera_stream.intruder_event_management camera clk f d v w
    = (Ok id, Some id, w1)
    /\ (forall k, occurrences k (trace w1) = S (occurrences k (trace w)))
    /\ registry_ok w1
    /\ last_unknown_capture_time w1 = camera_stream.time_time clk.
Proof.
  intros Hok Hopen. unfold camera_stream.intruder_event_management.
  rewrite (gate_open _ _ Hopen).
  destruct (full_event_effects camera clk f d v
              (set_last_unknown_capture_time (camera_stream.time_time clk) w))
    as (id & w1 & -> & Hocc & Hok1 & Hlast & _); [exact Hok|].
  exists id, w1. repeat split; assumption.
Qed.

Lemma event_suppressed (camera : CameraInput) clk f d v w :
  (camera_stream.time_time clk - last_unknown_capture_time w
   < config.UNKNOWN_CAPTURE_DEBOUNCE_TIME)%Q ->
  camera_stream.intruder_event_management camera clk f d v w
  = (match v with
     | Some id => Ok id
     | None => Raise UnboundLocalError
     end, v, w).
Proof.
  intros Hclosed. unfold camera_stream.intruder_event_management.
  by rewrite (gate_closed _ _ Hclosed).
Qed.
End unknown_gate.

Section unknown_gate_claims.
Context {Descriptor Frame : Type}.
Context `{!FaceMetric Descriptor} `{!Vision Frame Descriptor}.
Implicit Types (w : World Descriptor Frame) (d : Descriptor) (f : Frame).
Implicit Types (clk : camera_stream.Clock) (v : option string).

(** C2.  Two resolutions of unknown faces, on any two sessions, over a
    registry file that holds one id per descriptor, the first finding the
    gate open (as on a fresh start, where the stored timestamp is 0 and the
    clock shows the epoch time).  The first is a full event:
    resolution, capture, log entry with image and notification each occur
    once, and the stored timestamp becomes the time of that resolution.
    The second is allowed exactly when at least the window (10 s) has
    elapsed since then: when it has, the four parts occur a second time and
    the timestamp moves on; when it has not, the world is left exactly as
    it was, so none of the four side effects happens.  Hence 3 s apart
    gives one full event and 11 s apart gives two. *)
Theorem unknown_event_debounce
    (camera1 camera2 : CameraInput) clk1 clk2 f1 f2 d1 d2 v1 v2 w :
  registry_ok w ->
  (config.UNKNOWN_CAPTURE_DEBOUNCE_TIME
   <= camera_stream.time_time clk1 - last_unknown_capture_time w)%Q ->
  let w1 :=
    snd (camera_stream.intruder_event_management camera1 clk1 f1 d1 v1 w) in
  let w2 :=
    snd (camera_stream.intruder_event_management camera2 clk2 f2 d2 v2 w1) in
  let elapsed :=
    (camera_stream.time_time clk2 - camera_stream.time_time clk1)%Q in
  (forall k, occurrences k (trace w1) = (occurrences k (trace w) + 1)%nat)
  /\ last_unknown_capture_time w1 = camera_stream.time_time clk1
  /\ ((elapsed < config.UNKNOWN_CAPTURE_DEBOUNCE_TIME)%Q -> w2 = w1)
  /\ ((config.UNKNOWN_CAPTURE_DEBOUNCE_TIME <= elapsed)%Q ->
      (forall k, occurrences k (trace w2) = (occurrences k (trace w) + 2)%nat)
      /\ last_unknown_capture_time w2 = camera_stream.time_time clk2)
  /\ ((elapsed == 3)%Q ->
      forall k, occurrences k (trace w2) = (occurrences k (trace w) + 1)%nat)
  /\ ((elapsed == 11)%Q ->
      forall k, occurrences k (trace w2) = (occurrences k (trace w) + 2)%nat).
Proof.
  intros Hok Hopen.
  destruct (event_allowed camera1 clk1 f1 d1 v1 w Hok Hopen)
    as (id1 & w1 & He1 & Hocc1 & Hok1 & Hlast1).
  rewrite He1. cbn [snd]. cbv zeta.
  assert (Hsupp : (camera_stream.time_time clk2 - camera_stream.time_time clk1
                   < config.UNKNOWN_CAPTURE_DEBOUNCE_TIME)%Q ->
                  snd (camera_stream.intruder_event_management
                         camera2 clk2 f2 d2 v2 w1) = w1).
  { intros Hlt. rewrite event_suppressed; [reflexivity|]. by rewrite Hlast1. }
  assert (Hallow : (config.UNKNOWN_CAPTURE_DEBOUNCE_TIME
                    <= camera_stream.time_time clk2
                       - camera_stream.time_time clk1)%Q ->
                   (forall k,
                      occurrences k
                        (trace (snd (camera_stream.intruder_event_management
                                       camera2 clk2 f2 d2 v2 w1)))
                      = (occurrences k (trace w) + 2)%nat)
                   /\ last_unknown_capture_time
                        (snd (camera_stream.intruder_event_management
                                camera2 clk2 f2 d2 v2 w1))
                      = camera_stream.time_time clk2).
  { intros Hle.
    destruct (event_allowed camera2 clk2 f2 d2 v2 w1 Hok1)
      as (id2 & w2 & He2 & Hocc2 & _ & Hlast2); [by rewrite Hlast1|].
    rewrite He2. cbn [snd]. split; [|exact Hlast2].
    intros k. rewrite Hocc2, Hocc1. lia. }
  split; [intros k; rewrite Hocc1; lia|].
  split; [exact Hlast1|].
  split; [exact Hsupp|].
  split; [exact Hallow|].
  split.
  - intros H3 k. rewrite Hsupp; [rewrite Hocc1; lia|].
    unfold config.UNKNOWN_CAPTURE_DEBOUNCE_TIME. lra.
  - intros H11. apply Hallow.
    unfold config.UNKNOWN_CAPTURE_DEBOUNCE_TIME. lra.
Qed.


End unknown_gate_claims.

Lemma unknown_event_debounce_witness :
  let w1 :=
    snd (camera_stream.intruder_event_management
           toy.webcam (toy.clock_at 1000) (toy.portrait 7) 7%Z None
           toy.world0) in
  let w2 :=
    snd (camera_stream.intruder_event_management
           (StreamUrl "http://192.168.6.21:8080/video") (toy.clock_at 1003)
           (toy.portrait 90) 90%Z None w1) in
  occurrences Resolution (trace w2) = 1%nat
  /\ occurrences Capture (trace w2) = 1%nat
  /\ occurrences IntruderLog (trace w2) = 1%nat
  /\ occurrences Notification (trace w2) = 1%nat.
Proof.
  intros w1 w2.
  assert (Hopen : (config.UNKNOWN_CAPTURE_DEBOUNCE_TIME
                   <= camera_stream.time_time (toy.clock_at 1000)
                      - last_unknown_capture_time toy.world0)%Q).
  { vm_compute. discriminate. }
  destruct (unknown_event_debounce
              toy.webcam (StreamUrl "http://192.168.6.21:8080/video")
              (toy.clock_at 1000) (toy.clock_at 1003)
              (toy.portrait 7) (toy.portrait 90) 7%Z 90%Z None None
              toy.world0 eq_refl Hopen) as (_ & _ & _ & _ & H3 & _).
  pose proof (H3 eq_refl) as Hone.
  split; [exact (Hone Resolution)|].
  split; [exact (Hone Capture)|].
  split; [exact (Hone IntruderLog) | exact (Hone Notification)].
Defined.

(** C2 as stated fails for two resolutions that fall into a window already
    running.  The last full event was at 995.  Resolutions at 1000 and
    1003, 3 s apart, are both suppressed: no full event, where the claim
    says one.  Resolutions at 1000 and 1011, 11 s apart, give one full
    event, where the claim says two. *)
Lemma two_resolutions_in_a_running_window :
  let resolve t d w :=
    snd (camera_stream.intruder_event_management
           toy.webcam (toy.clock_at t) (toy.portrait d) d None w) in
  let near := resolve 1003%Q 90%Z (resolve 1000%Q 7%Z toy.world_after_event) in
  let far := resolve 1011%Q 90%Z (resolve 1000%Q 7%Z toy.world_after_event) in
  (occurrences Resolution (trace near) = 0%nat
   /\ occurrences Capture (trace near) = 0%nat
   /\ occurrences IntruderLog (trace near) = 0%nat
   /\ occurrences Notification (trace near) = 0%nat)
  /\ (occurrences Resolution (trace far) = 1%nat
      /\ occurrences Capture (trace far) = 1%nat
      /\ occurrences IntruderLog (trace far) = 1%nat
      /\ occurrences Notification (trace far) = 1%nat).
Proof.
  cbv zeta.
  split; do 3 (split; [vm_compute; reflexivity|]); vm_compute; reflexivity.
Qed.


(** ** C6: the per-session gate for known faces *)

Section known_gate.
Context {Descriptor Frame : Type}.
Context `{!FaceMetric Descriptor} `{!Vision Frame Descriptor}.
Implicit Types (w : World Descriptor Frame) (d : Descriptor) (f : Frame).
Implicit Types (s : camera_stream.Session Descriptor Frame).


Lemma process_face_known (clk : camera_stream.Clock) f d s w
    (name_with_gender gender person_name : string) :
  camera_stream.recognize s d = Ok (name_with_gender, gender, person_name) ->
  name_with_gender <> "Unknown" ->
  camera_stream.process_face clk f d s w
  = (Ok person_name,
     camera_stream.set_last_logged_times
       (fst (camera_stream.log_known_face
               name_with_gender person_name gender
               (camera_stream.datetime_now clk)
               (camera_stream.last_logged_times s) w)) s,
     snd (camera_stream.log_known_face
            name_with_gender person_name gender
            (camera_stream.datetime_now clk)
            (camera_stream.last_logged_times s) w)).
Proof.
  intros Hrec Hne. unfold camera_stream.process_face. rewrite Hrec.
  apply String.eqb_neq in Hne. rewrite Hne.
  by destruct (camera_stream.log_known_face _ _ _ _ _ _).
Qed.



End known_gate.


(** ** C5 and C7: what is done with one frame *)

Section frame_facts.
Context {Descriptor Frame : Type}.
Context `{!FaceMetric Descriptor} `{!Vision Frame Descriptor}.
Implicit Types (w : World Descriptor Frame) (d : Descriptor) (f : Frame).
Implicit Types (s : camera_stream.Session Descriptor Frame).
Implicit Types (env : camera_stream.FrameEnv).








(** Handling faces touches two things in the session only: the labelling
    variable and the map of last log times. *)
Lemma process_face_touches (clk : camera_stream.Clock) f d s w :
  exists (v : option string) (m : gmap string Q),
    snd (fst (camera_stream.process_face clk f d s w))
    = camera_stream.set_intruder_id_for_event
        v (camera_stream.set_last_logged_times m s).
Proof.
  unfold camera_stream.process_face.
  destruct (camera_stream.recognize s d) as [[[n g] p]|e].
  - destruct (String.eqb n "Unknown").
    + destruct (camera_stream.intruder_event_management _ _ _ _ _ _)
        as [[label v1] w1].
      exists v1, (camera_stream.last_logged_times s). by destruct s.
    + destruct (camera_stream.log_known_face _ _ _ _ _ _) as [m w1].
      exists (camera_stream.intruder_id_for_event s), m. by destruct s.
  - exists (camera_stream.intruder_id_for_event s),
      (camera_stream.last_logged_times s). by destruct s.
Qed.

Lemma process_faces_touches (clocks : nat -> camera_stream.Clock) f
    (encodings : list Descriptor) (i : nat) (names : list string) s w :
  exists (v : option string) (m : gmap string Q),
    snd (fst (camera_stream.process_faces clocks i f encodings names s w))
    = camera_stream.set_intruder_id_for_event
        v (camera_stream.set_last_logged_times m s).
Proof.
  revert i names s w. induction encodings as [|d rest IH];
    intros i names s w; cbn [camera_stream.process_faces].
  - exists (camera_stream.intruder_id_for_event s),
      (camera_stream.last_logged_times s). by destruct s.
  - destruct (process_face_touches (clocks i) f d s w) as (v & m & Hs).
    destruct (camera_stream.process_face (clocks i) f d s w)
      as [[[label|e] s1] w1]; cbn [fst snd] in Hs; subst s1.
    + destruct (IH (S i) (names ++ [label])
                  (camera_stream.set_intruder_id_for_event
                     v (camera_stream.set_last_logged_times m s)) w1)
        as (v' & m' & ->).
      exists v', m'. by destruct s.
    + by exists v, m.
Qed.



End frame_facts.

Section frame_claims.
Context {Descriptor Frame : Type}.
Context `{!FaceMetric Descriptor} `{!Vision Frame Descriptor}.
Implicit Types (w : World Descriptor Frame) (d : Descriptor) (f : Frame).
Implicit Types (s : camera_stream.Session Descriptor Frame).
Implicit Types (env : camera_stream.FrameEnv).

(** C7.  A frame that is processed (counter a multiple of 4, reduced image
    not empty) and in which the detector reports more than ten faces is
    dropped: the loop goes on to the next frame, the only thing that
    happened is the call of the detector, no encoding is computed, nothing
    is resolved, logged, captured or sent, and the output queue is left as
    it was. *)
Theorem too_many_faces_drop_frame env f s w (locations : list Box) :
  (camera_stream.frame_counter s + 1) mod 4 = 0%nat ->
  frame_is_empty (cvtColor_BGR2RGB (resize_quarter f)) = false ->
  face_locations (cvtColor_BGR2RGB (resize_quarter f)) = Ok locations ->
  (camera_stream.MAX_REASONABLE_FACES < length locations)%nat ->
  camera_stream.process_frame env f s w
  = (camera_stream.Continue,
     camera_stream.set_frame_counter (camera_stream.frame_counter s + 1) s,
     emit (FaceLocations (cvtColor_BGR2RGB (resize_quarter f))) w)
  /\ camera_stream.frame_queue
       (snd (fst (camera_stream.process_frame env f s w)))
     = camera_stream.frame_queue s
  /\ trace (snd (camera_stream.process_frame env f s w))
     = trace w ++ [FaceLocations (cvtColor_BGR2RGB (resize_quarter f))]
  /\ intruder_file (snd (camera_stream.process_frame env f s w))
     = intruder_file w
  /\ last_unknown_capture_time (snd (camera_stream.process_frame env f s w))
     = last_unknown_capture_time w
  /\ camera_stream.last_logged_times
       (snd (fst (camera_stream.process_frame env f s w)))
     = camera_stream.last_logged_times s.
Proof.
  intros Hmod Hne Hloc Hmany.
  assert (Heq : camera_stream.process_frame env f s w
                = (camera_stream.Continue,
                   camera_stream.set_frame_counter
                     (camera_stream.frame_counter s + 1) s,
                   emit (FaceLocations (cvtColor_BGR2RGB (resize_quarter f)))
                        w)).
  { unfold camera_stream.process_frame.
    cbn [camera_stream.frame_counter camera_stream.set_frame_counter].
    rewrite Hmod, Hne, Hloc. cbn [Nat.eqb].
    apply Nat.ltb_lt in Hmany. by rewrite Hmany. }
  rewrite Heq. repeat split.
Qed.

End frame_claims.

Lemma too_many_faces_drop_frame_witness :
  camera_stream.process_frame
    (toy.env_at 1000) (toy.crowd 11)
    (camera_stream.set_frame_counter 3 toy.session0) toy.world0
  = (camera_stream.Continue,
     camera_stream.set_frame_counter 4 toy.session0,
     emit (FaceLocations (toy.crowd 11)) toy.world0).
Proof.
  assert (Hmany : (camera_stream.MAX_REASONABLE_FACES
                   < length (map fst (toy.faces (toy.crowd 11))))%nat).
  { vm_compute. lia. }
  assert (Hmod : (camera_stream.frame_counter
                    (camera_stream.set_frame_counter 3 toy.session0) + 1)
                 mod 4 = 0%nat) by reflexivity.
  assert (Hne : frame_is_empty
                  (cvtColor_BGR2RGB (resize_quarter (toy.crowd 11))) = false)
    by reflexivity.
  assert (Hloc : face_locations
                   (cvtColor_BGR2RGB (resize_quarter (toy.crowd 11)))
                 = Ok (map fst (toy.faces (toy.crowd 11)))) by reflexivity.
  destruct (too_many_faces_drop_frame
              (toy.env_at 1000) (toy.crowd 11)
              (camera_stream.set_frame_counter 3 toy.session0) toy.world0
              (map fst (toy.faces (toy.crowd 11)))
              Hmod Hne Hloc Hmany) as (H & _).
  exact H.
Defined.



(** ** C4 and C8: the reader thread *)

Section reader_facts.
Context {Descriptor Frame : Type}.
Context `{!FaceMetric Descriptor} `{!Vision Frame Descriptor}.
Implicit Types (w : World Descriptor Frame) (f : Frame).
Implicit Types (s : camera_stream.Session Descriptor Frame).
Implicit Types (env : camera_stream.ReaderEnv Frame).

Lemma handoff_single f (q : queue.Queue Frame) :
  queue.maxsize q = 1%nat ->
  (length (queue.items q) <= 1)%nat ->
  camera_stream.handoff f q = queue.mkQueue 1 [f].
Proof.
  destruct q as [m [|x [|y l]]]; simpl; intros -> Hlen;
    [reflexivity | reflexivity | lia].
Qed.

Lemma reader_step_acquires (b : bool) f s w :
  acquiring s w ->
  camera_stream.reader_step (camera_stream.mkReaderEnv b (Some f)) s w
  = (camera_stream.set_internal_frame_queue (queue.mkQueue 1 [f]) s,
     emit (Sleep (1 # 1000)) w).
Proof.
  intros (Halive & Hstop & Hmax & Hlen).
  unfold camera_stream.reader_step. rewrite Halive, Hstop.
  unfold camera_stream.reader_body. cbn [camera_stream.read].
  by rewrite (handoff_single f _ Hmax Hlen).
Qed.

Lemma acquiring_after (b : bool) f s w :
  acquiring s w ->
  acquiring (camera_stream.set_internal_frame_queue (queue.mkQueue 1 [f]) s)
            (emit (Sleep (1 # 1000)) w).
Proof.
  intros (Halive & Hstop & _). repeat split; try assumption. simpl. lia.
Qed.

Lemma run_reader_app (script1 script2 : list (camera_stream.ReaderEnv Frame))
    s w :
  camera_stream.run_reader (script1 ++ script2) s w
  = camera_stream.run_reader
      script2 (fst (camera_stream.run_reader script1 s w))
      (snd (camera_stream.run_reader script1 s w)).
Proof.
  revert s w. induction script1 as [|env rest IH]; intros s w;
    cbn [app camera_stream.run_reader fst snd]; [reflexivity|].
  destruct (camera_stream.reader_step env s w) as [s1 w1]. apply IH.
Qed.

Lemma run_reader_acquiring (reads : list (bool * Frame)) s w :
  acquiring s w ->
  acquiring (fst (camera_stream.run_reader (acquisitions reads) s w))
            (snd (camera_stream.run_reader (acquisitions reads) s w)).
Proof.
  revert s w. induction reads as [|[b f] rest IH]; intros s w Hacq;
    cbn [acquisitions map camera_stream.run_reader fst snd]; [exact Hacq|].
  rewrite (reader_step_acquires b f s w Hacq).
  apply IH. by apply acquiring_after.
Qed.

(** C4.  While the reader is in its loop and the processing thread does
    not read, the internal queue never holds more than one frame, and after
    any number K >= 1 of successful acquisitions it holds exactly the frame
    of the last one.  Both queue calls are the non-blocking ones. *)
Theorem handoff_keeps_latest (reads : list (bool * Frame)) (b : bool) f s w :
  camera_stream.reader_thread s = camera_stream.Alive ->
  stop_event w = false ->
  queue.maxsize (camera_stream.internal_frame_queue s) = 1%nat ->
  (length (queue.items (camera_stream.internal_frame_queue s)) <= 1)%nat ->
  camera_stream.internal_frame_queue
    (fst (camera_stream.run_reader (acquisitions (reads ++ [(b, f)])) s w))
  = queue.mkQueue 1 [f]
  /\ (length (queue.items
                (camera_stream.internal_frame_queue
                   (fst (camera_stream.run_reader (acquisitions reads) s w))))
      <= 1)%nat
  /\ camera_stream.reader_thread
       (fst (camera_stream.run_reader (acquisitions (reads ++ [(b, f)])) s w))
     = camera_stream.Alive.
Proof.
  intros Halive Hstop Hmax Hlen.
  assert (Hacq : acquiring s w) by (repeat split; assumption).
  pose proof (run_reader_acquiring reads s w Hacq) as Hmid.
  unfold acquisitions. rewrite map_app, run_reader_app.
  fold (acquisitions reads).
  cbn [map camera_stream.run_reader fst snd].
  rewrite (reader_step_acquires b f _ _ Hmid). cbn [fst].
  split; [reflexivity|]. split; [apply Hmid|].
  cbn. apply Hmid.
Qed.
End reader_facts.

Section reader_exit.
Context {Descriptor Frame : Type}.
Context `{!FaceMetric Descriptor} `{!Vision Frame Descriptor}.
Implicit Types (w : World Descriptor Frame) (f : Frame).
Implicit Types (s : camera_stream.Session Descriptor Frame).
Implicit Types (env : camera_stream.ReaderEnv Frame).

Lemma configure_capture_trace (b : bool) s w :
  trace (camera_stream.configure_capture b s w)
  = trace w
    ++ CapSet (camera_stream.camera_input s) "CAP_PROP_BUFFERSIZE" 1
       :: (if b
           then [CapSet (camera_stream.camera_input s)
                        "CAP_PROP_FRAME_WIDTH" 320;
                 CapSet (camera_stream.camera_input s)
                        "CAP_PROP_FRAME_HEIGHT" 240]
           else []).
Proof.
  unfold camera_stream.configure_capture. destruct b; cbn [emit trace];
    by rewrite <- ?app_assoc.
Qed.

Lemma configure_capture_stop (b : bool) s w :
  stop_event (camera_stream.configure_capture b s w) = stop_event w.
Proof. unfold camera_stream.configure_capture. by destruct b. Qed.

Lemma camera_input_reader_step env s w :
  camera_stream.camera_input (fst (camera_stream.reader_step env s w))
  = camera_stream.camera_input s.
Proof.
  unfold camera_stream.reader_step, camera_stream.reader_prologue,
    camera_stream.reader_body, camera_stream.reader_epilogue.
  destruct (camera_stream.reader_thread s); [|destruct (stop_event w)|..];
    try reflexivity.
  - by destruct (camera_stream.open_ok env).
  - destruct (camera_stream.read env); [reflexivity|].
    by destruct (camera_stream.open_ok env).
Qed.

Lemma reader_step_inv env s w :
  reader_inv s w ->
  reader_inv (fst (camera_stream.reader_step env s w))
             (snd (camera_stream.reader_step env s w)).
Proof.
  unfold reader_inv at 1. intros Hst.
  destruct (camera_stream.reader_thread s) eqn:Hth; try contradiction.
  - unfold camera_stream.reader_step. rewrite Hth.
    destruct (stop_event w) eqn:Hstop.
    + unfold camera_stream.reader_epilogue, reader_inv. cbn.
      split; [reflexivity|]. split; [exact Hstop|]. by exists (trace w).
    + unfold camera_stream.reader_body.
      destruct (camera_stream.read env) as [frame|].
      * unfold reader_inv. cbn. by rewrite Hth.
      * destruct (camera_stream.open_ok env); cbn [negb fst snd].
        -- unfold reader_inv. cbn. by rewrite Hth.
        -- unfold camera_stream.reader_epilogue, reader_inv. cbn.
           split; [reflexivity|]. split; [reflexivity|]. by eexists.
  - unfold camera_stream.reader_step. rewrite Hth. cbn [fst snd].
    unfold reader_inv. by rewrite Hth.
Qed.

Lemma run_reader_inv (script : list (camera_stream.ReaderEnv Frame)) s w :
  reader_inv s w ->
  reader_inv (fst (camera_stream.run_reader script s w))
             (snd (camera_stream.run_reader script s w)).
Proof.
  revert s w. induction script as [|env rest IH]; intros s w Hinv;
    cbn [camera_stream.run_reader]; [exact Hinv|].
  pose proof (reader_step_inv env s w Hinv) as Hstep.
  destruct (camera_stream.reader_step env s w) as [s1 w1]. by apply IH.
Qed.

Lemma camera_input_run_reader
    (script : list (camera_stream.ReaderEnv Frame)) s w :
  camera_stream.camera_input (fst (camera_stream.run_reader script s w))
  = camera_stream.camera_input s.
Proof.
  revert s w. induction script as [|env rest IH]; intros s w;
    cbn [camera_stream.run_reader]; [reflexivity|].
  pose proof (camera_input_reader_step env s w) as Hstep.
  destruct (camera_stream.reader_step env s w) as [s1 w1].
  cbn [fst] in Hstep. by rewrite IH, Hstep.
Qed.

(** A reader that has finished does nothing more. *)
Lemma run_reader_finished (script : list (camera_stream.ReaderEnv Frame))
    s w :
  camera_stream.reader_thread s = camera_stream.Finished ->
  camera_stream.run_reader script s w = (s, w).
Proof.
  intros Hfin. induction script as [|env rest IH];
    cbn [camera_stream.run_reader]; [reflexivity|].
  unfold camera_stream.reader_step. by rewrite Hfin.
Qed.

(** C8.  In the loop, with no stop requested, a failed read makes the
    reader release the capture, sleep half a second and open the source
    again.  When the reopening succeeds the thread stays in its loop with an
    open capture.  When it fails the stop event shared by all sessions is
    set, the capture object is released and the thread ends.  The exits of
    the thread started from [__init__], whatever the camera answers and
    however long it runs: when the very first open fails the thread sets
    the stop event and returns at once, and no release is ever called on
    its capture; when the first open succeeds and the thread has finished,
    the stop event is set, the capture is not open and the last thing the
    thread did was to release it.  The calls on the capture are taken to
    return rather than raise. *)
Theorem reader_failure_policy env s w :
  camera_stream.reader_thread s = camera_stream.Alive ->
  stop_event w = false ->
  camera_stream.read env = None ->
  let c := camera_stream.camera_input s in
  let r := camera_stream.reader_step env s w in
  (camera_stream.open_ok env = true ->
   camera_stream.reader_thread (fst r) = camera_stream.Alive
   /\ camera_stream.cap (fst r) = camera_stream.VideoCapture true
   /\ stop_event (snd r) = false
   /\ trace (snd r)
      = trace w
        ++ [ReleaseCapture c; Sleep (1 # 2); OpenCapture c;
            CapSet c "CAP_PROP_BUFFERSIZE" 1]
        ++ (if camera_is_int c
            then [CapSet c "CAP_PROP_FRAME_WIDTH" 320;
                  CapSet c "CAP_PROP_FRAME_HEIGHT" 240]
            else []))
  /\ (camera_stream.open_ok env = false ->
      camera_stream.reader_thread (fst r) = camera_stream.Finished
      /\ camera_stream.cap (fst r) = camera_stream.VideoCapture false
      /\ stop_event (snd r) = true
      /\ trace (snd r)
         = trace w
           ++ [ReleaseCapture c; Sleep (1 # 2); OpenCapture c;
               ReleaseCapture c])
  /\ (forall (first : camera_stream.ReaderEnv Frame)
             (rest : list (camera_stream.ReaderEnv Frame))
             (camera : CameraInput) (known_encs : list Descriptor)
             (known_names known_genders : list string)
             (display_queue : queue.Queue Frame) (w0 : World Descriptor Frame),
        let final :=
          camera_stream.run_reader
            (first :: rest)
            (camera_stream.init camera known_encs known_names known_genders
                                display_queue) w0 in
        (camera_stream.open_ok first = false ->
         camera_stream.reader_thread (fst final) = camera_stream.Finished
         /\ camera_stream.cap (fst final) = camera_stream.VideoCapture false
         /\ stop_event (snd final) = true
         /\ trace (snd final) = trace w0 ++ [OpenCapture camera])
        /\ (camera_stream.open_ok first = true ->
            camera_stream.reader_thread (fst final) = camera_stream.Finished ->
            camera_stream.cap (fst final) = camera_stream.VideoCapture false
            /\ stop_event (snd final) = true
            /\ exists tr,
                 trace (snd final) = tr ++ [ReleaseCapture camera])).
Proof.
  intros Halive Hstop Hread c r.
  assert (Hr : r = match camera_stream.reader_body env s w with
                   | (camera_stream.Continue, s1, w1) => (s1, w1)
                   | (camera_stream.Break, s1, w1) =>
                       camera_stream.reader_epilogue s1 w1
                   | (camera_stream.Crash e, s1, w1) =>
                       (camera_stream.set_reader_thread
                          (camera_stream.Died e) s1, w1)
                   end).
  { unfold r, camera_stream.reader_step. by rewrite Halive, Hstop. }
  unfold camera_stream.reader_body in Hr. rewrite Hread in Hr.
  split; [|split].
  - intros Hok. rewrite Hok in Hr. cbn [negb] in Hr. rewrite Hr.
    cbn [fst snd]. split; [exact Halive|]. split; [reflexivity|].
    split.
    + by rewrite configure_capture_stop.
    + rewrite configure_capture_trace. cbn [emit trace].
      by rewrite <- !app_assoc.
  - intros Hfail. rewrite Hfail in Hr. cbn [negb] in Hr. rewrite Hr.
    unfold camera_stream.reader_epilogue. cbn.
    repeat split. by rewrite <- !app_assoc.
  - intros first rest camera known_encs known_names known_genders
      display_queue w0 final.
    set (s0 := camera_stream.init camera known_encs known_names known_genders
                                  display_queue) in final.
    assert (Hfinal : final
                     = camera_stream.run_reader
                         rest
                         (fst (camera_stream.reader_prologue first s0 w0))
                         (snd (camera_stream.reader_prologue first s0 w0))).
    { unfold final. cbn [camera_stream.run_reader].
      unfold camera_stream.reader_step. cbn [s0 camera_stream.init
        camera_stream.reader_thread].
      by destruct (camera_stream.reader_prologue first _ w0). }
    split.
    + intros Hfail. rewrite Hfinal.
      unfold camera_stream.reader_prologue. rewrite Hfail. cbn [negb fst snd].
      rewrite run_reader_finished by reflexivity.
      cbn. by repeat split.
    + intros Hok Hfin.
      assert (Hinv : reader_inv (fst final) (snd final)).
      { rewrite Hfinal. apply run_reader_inv.
        unfold camera_stream.reader_prologue. rewrite Hok.
        cbn [negb fst snd]. unfold reader_inv. by cbn. }
      unfold reader_inv in Hinv. rewrite Hfin in Hinv.
      destruct Hinv as (Hcap & Hst & tr & Htr).
      split; [exact Hcap|]. split; [exact Hst|]. exists tr.
      rewrite Htr. f_equal. f_equal. rewrite Hfinal.
      rewrite camera_input_run_reader.
      unfold camera_stream.reader_prologue. rewrite Hok. by cbn.
Qed.
End reader_exit.

Lemma handoff_keeps_latest_witness :
  let started :=
    camera_stream.reader_step (camera_stream.mkReaderEnv true None)
                              toy.session0 toy.world0 in
  camera_stream.internal_frame_queue
    (fst (camera_stream.run_reader
            (acquisitions ([(true, toy.blank); (true, toy.portrait 1)]
                           ++ [(true, toy.portrait 2)]))
            (fst started) (snd started)))
  = queue.mkQueue 1 [toy.portrait 2].
Proof.
  intros started.
  assert (Hlen : (length (queue.items (camera_stream.internal_frame_queue
                                         (fst started))) <= 1)%nat).
  { vm_compute. lia. }
  destruct (handoff_keeps_latest
              [(true, toy.blank); (true, toy.portrait 1)] true
              (toy.portrait 2) (fst started) (snd started)
              eq_refl eq_refl eq_refl Hlen) as (H & _).
  exact H.
Defined.

Lemma reader_failure_policy_witness :
  let started :=
    camera_stream.reader_step (camera_stream.mkReaderEnv true None)
                              toy.session0 toy.world0 in
  let r :=
    camera_stream.reader_step (camera_stream.mkReaderEnv false None)
                              (fst started) (snd started) in
  camera_stream.reader_thread (fst r) = camera_stream.Finished
  /\ camera_stream.cap (fst r) = camera_stream.VideoCapture false
  /\ stop_event (snd r) = true.
Proof.
  intros started r.
  destruct (reader_failure_policy
              (camera_stream.mkReaderEnv false None) (fst started)
              (snd started) eq_refl eq_refl eq_refl) as (_ & Hfail & _).
  destruct (Hfail eq_refl) as (H1 & H2 & H3 & _).
  repeat split; assumption.
Defined.

(** C8 as stated fails when the source cannot be opened at all: the thread
    sets the stop event and ends, and its trace holds the attempt to open
    the capture and no release. *)
Lemma first_open_failure_exits_without_release :
  let final :=
    camera_stream.run_reader [camera_stream.mkReaderEnv false None]
                             toy.session0 toy.world0 in
  camera_stream.reader_thread (fst final) = camera_stream.Finished
  /\ stop_event (snd final) = true
  /\ trace (snd final) = [OpenCapture toy.webcam]
  /\ ~ In (ReleaseCapture toy.webcam) (trace (snd final)).
Proof.
  vm_compute. split; [reflexivity|]. split; [reflexivity|].
  split; [reflexivity|]. intros [H|[]]. discriminate H.
Qed.

(** ** The two gates at work on two cameras

    Camera 0 sees a stranger at time 1000: a full event, the stranger
    becomes "Intruder_1".  Camera 1 sees another stranger three seconds
    later: the gate is closed, nothing is captured, logged or sent, and as
    the processing loop of camera 1 never assigned its labelling variable
    the loop ends with [UnboundLocalError].  The stop event is not set. *)
Example two_cameras_three_seconds_apart :
  let final :=
    camera_stream.run_system
      (toy.four_frames 0 1000 (toy.portrait 7)
       ++ toy.four_frames 1 1003 (toy.portrait 90))
      toy.two_cameras in
  (camera_stream.processing_thread <$> camera_stream.sessions final)
  = [camera_stream.Alive; camera_stream.Died UnboundLocalError]
  /\ (camera_stream.intruder_id_for_event <$> camera_stream.sessions final)
     = [Some "Intruder_1"; None]
  /\ intruder_file (camera_stream.world final)
     = Some ([7%Z], ["Intruder_1"])
  /\ last_unknown_capture_time (camera_stream.world final) = 1000%Q
  /\ stop_event (camera_stream.world final) = false
  /\ (forall k, occurrences k (trace (camera_stream.world final)) = 1%nat).
Proof.
  cbv zeta.
  do 5 (split; [vm_compute; reflexivity|]).
  intros []; vm_compute; reflexivity.
Qed.

(** * Further properties of the registry *)

Section registry_more.
Context {Descriptor Frame : Type} `{!FaceMetric Descriptor}.
Implicit Types (w : World Descriptor Frame) (d : Descriptor).

Lemma registry_emit (e : Effect Descriptor Frame) w :
  registry (emit e w) = registry w.
Proof. reflexivity. Qed.

(** X1.  On a well-formed registry the resolution always returns an id;
    the registry it leaves is the old one or the old one with one record
    appended, the records that were there keep their place, and the id
    returned names a record of the registry as the call leaves it. *)
Theorem match_or_add_keeps_records d (tol : Q) w :
  registry_ok w ->
  exists id : string,
    fst (intruder_tracker.match_or_add_intruder d tol w) = Ok id
    /\ registry_ok (snd (intruder_tracker.match_or_add_intruder d tol w))
    /\ (registry (snd (intruder_tracker.match_or_add_intruder d tol w))
        = registry w
        \/ (id = intruder_name (length (snd (registry w)) + 1)
            /\ registry (snd (intruder_tracker.match_or_add_intruder d tol w))
               = (fst (registry w) ++ [d], snd (registry w) ++ [id])))
    /\ In id (snd (registry
                     (snd (intruder_tracker.match_or_add_intruder d tol w)))).
Proof.
  intros Hok. destruct (registry_ok_pairs w Hok) as (R & HR).
  rewrite (match_or_add_face_match R d tol w HR).
  pose proof (face_match_sound tol d R) as Hs.
  destruct (face_match tol d R) as [p|].
  - destruct Hs as (Hin & _). exists (snd p). cbn [fst snd].
    rewrite registry_emit. split; [reflexivity|]. split; [exact Hok|].
    split; [by left|]. rewrite HR. cbn [snd]. by apply in_map.
  - exists (intruder_name (length R + 1)). cbn [fst snd].
    rewrite registry_after_save, HR. cbn [fst snd].
    split; [reflexivity|]. split.
    { unfold registry_ok. rewrite registry_after_save. cbn [fst snd].
      by rewrite !length_app, !length_map. }
    split.
    + right. by rewrite length_map.
    + apply in_or_app. right. by left.
Qed.

(** X2.  Resolving the same descriptor a second time, when a descriptor is
    within the threshold of itself, returns the id the first call returned
    and only reads the file: no second record, no second save. *)
Theorem match_or_add_idempotent d (tol : Q) w :
  registry_ok w ->
  (norm_diff d d <= tol)%Q ->
  let r1 := intruder_tracker.match_or_add_intruder d tol w in
  let r2 := intruder_tracker.match_or_add_intruder d tol (snd r1) in
  fst r2 = fst r1
  /\ registry (snd r2) = registry (snd r1)
  /\ trace (snd r2) = trace (snd r1) ++ [LoadIntruderDb].
Proof.
  intros Hok Hself. destruct (registry_ok_pairs w Hok) as (R & HR).
  cbv zeta.
  rewrite (match_or_add_face_match R d tol w HR).
  pose proof (face_match_sound tol d R) as Hs.
  destruct (face_match tol d R) as [p|] eqn:Hp.
  - cbn [fst snd].
    rewrite (match_or_add_face_match R d tol (emit LoadIntruderDb w)) by
      (by rewrite registry_emit).
    rewrite Hp. repeat split.
  - cbn [fst snd].
    set (id := intruder_name (length R + 1)).
    set (w1 := intruder_tracker.save_intruder_db _ _ _).
    assert (HR1 : registry w1
                  = (map fst (R ++ [(d, id)]), map snd (R ++ [(d, id)]))).
    { unfold w1. by rewrite registry_after_save, !map_app. }
    rewrite (match_or_add_face_match _ d tol w1 HR1).
    pose proof (face_match_sound tol d (R ++ [(d, id)])) as Hs1.
    destruct (face_match tol d (R ++ [(d, id)])) as [p|].
    + destruct Hs1 as (Hin & Hle & _).
      apply in_app_or in Hin as [Hin|[<-|[]]].
      * rewrite List.Forall_forall in Hs. specialize (Hs p Hin).
        destruct (Qlt_not_le _ _ Hs Hle).
      * cbn [fst snd]. rewrite registry_emit. repeat split.
    + exfalso. rewrite List.Forall_forall in Hs1.
      specialize (Hs1 (d, id)). cbn [fst] in Hs1.
      apply (Qlt_not_le _ _ (Hs1 ltac:(apply in_or_app; right; by left)) Hself).
Qed.

(** X3.  When the registry file holds fewer ids than descriptors and the
    nearest matching record is one without an id, the resolution raises
    [IndexError] after reading the file: nothing is saved and the file
    keeps its content. *)
Theorem match_or_add_missing_id d (tol : Q) w
    (encodings : list Descriptor) (ids : list string) (j : nat) :
  intruder_file w = Some (encodings, ids) ->
  Exists (fun e => (norm_diff e d <= tol)%Q) encodings ->
  np.argmin (face_recognition.face_distance encodings d) = Ok j ->
  (length ids <= j)%nat ->
  intruder_tracker.match_or_add_intruder d tol w
  = (Raise IndexError, emit LoadIntruderDb w).
Proof.
  intros Hf Hex Hj Hlen.
  unfold intruder_tracker.match_or_add_intruder,
    intruder_tracker.load_intruder_db. rewrite Hf.
  destruct encodings as [|e encodings]; [by inversion Hex|].
  change (py_truthy (e :: encodings)) with true. cbv iota.
  assert (Hany : existsb (fun m : bool => m)
                   (face_recognition.compare_faces (e :: encodings) d tol)
                 = true).
  { apply existsb_exists. exists true. split; [|done].
    unfold face_recognition.compare_faces, face_recognition.face_distance.
    rewrite map_map. apply in_map_iff.
    apply List.Exists_exists in Hex as (x & Hin & Hx).
    exists x. split; [by apply Qle_bool_iff | exact Hin]. }
  rewrite Hany, Hj. cbn [mbind Result_bind]. unfold py_index.
  by rewrite (lookup_ge_None_2 ids j Hlen).
Qed.
End registry_more.

(** * Invariants of the running pipeline *)

Section pipeline_invariants.
Context {Descriptor Frame : Type}.
Context `{!FaceMetric Descriptor} `{!Vision Frame Descriptor}.
Implicit Types (w : World Descriptor Frame) (d : Descriptor) (f : Frame).
Implicit Types (s : camera_stream.Session Descriptor Frame).

Lemma world_le_refl w : world_le w w.
Proof. split; [done | apply Qle_refl]. Qed.

Lemma world_le_trans w1 w2 w3 :
  world_le w1 w2 -> world_le w2 w3 -> world_le w1 w3.
Proof.
  intros [Hs1 Hl1] [Hs2 Hl2]. split; [auto | by eapply Qle_trans].
Qed.

Lemma world_le_emit (e : Effect Descriptor Frame) w : world_le w (emit e w).
Proof. split; [done | apply Qle_refl]. Qed.

Lemma world_le_set_stop w : world_le w (set_stop_event w).
Proof. split; [done | apply Qle_refl]. Qed.

(** The resolution changes neither the stop event nor the timestamp. *)
Lemma match_or_add_same_flags d (tol : Q) w :
  stop_event (snd (intruder_tracker.match_or_add_intruder d tol w))
  = stop_event w
  /\ last_unknown_capture_time
       (snd (intruder_tracker.match_or_add_intruder d tol w))
     = last_unknown_capture_time w.
Proof.
  unfold intruder_tracker.match_or_add_intruder,
    intruder_tracker.load_intruder_db.
  destruct (intruder_file w) as [[encs ids]|];
    repeat match goal with
           | |- context [if ?b then _ else _] => destruct b
           end; by cbn.
Qed.

(** Handling an unknown face leaves the stop event alone and moves the
    timestamp, if at all, forward by at least the window. *)
Lemma event_management_flags (camera : CameraInput)
    (clk : camera_stream.Clock) f d (v : option string) w :
  let w' :=
    snd (camera_stream.intruder_event_management camera clk f d v w) in
  stop_event w' = stop_event w
  /\ (last_unknown_capture_time w' = last_unknown_capture_time w
      \/ (last_unknown_capture_time w' = camera_stream.time_time clk
          /\ (config.UNKNOWN_CAPTURE_DEBOUNCE_TIME
              <= last_unknown_capture_time w'
                 - last_unknown_capture_time w)%Q)).
Proof.
  unfold camera_stream.intruder_event_management,
    camera_stream.unknown_capture_debounce.
  destruct (Qle_bool _ _) eqn:Hb; cbn [snd]; [|by split; [|left]].
  apply Qle_bool_iff in Hb. unfold camera_stream.full_intruder_event.
  destruct (match_or_add_same_flags d config.RECOGNITION_TOLERANCE
              (set_last_unknown_capture_time (camera_stream.time_time clk) w))
    as [Hstop Hlast].
  destruct (intruder_tracker.match_or_add_intruder _ _ _) as [[id|e] w1];
    cbn [snd emit stop_event last_unknown_capture_time] in *;
    (split; [exact Hstop|]); right; rewrite Hlast; cbn; (split; [done|]);
    exact Hb.
Qed.

Lemma window_nonneg_step (a b : Q) :
  (config.UNKNOWN_CAPTURE_DEBOUNCE_TIME <= b - a)%Q -> (a <= b)%Q.
Proof. unfold config.UNKNOWN_CAPTURE_DEBOUNCE_TIME. lra. Qed.

Lemma process_face_flags (clk : camera_stream.Clock) f d s w :
  stop_event (snd (camera_stream.process_face clk f d s w)) = stop_event w
  /\ (last_unknown_capture_time w
      <= last_unknown_capture_time
           (snd (camera_stream.process_face clk f d s w)))%Q.
Proof.
  unfold camera_stream.process_face.
  destruct (camera_stream.recognize s d) as [[[n g] p]|e];
    [|split; [done | apply Qle_refl]].
  destruct (String.eqb n "Unknown").
  - pose proof (event_management_flags (camera_stream.camera_input s) clk f d
                  (camera_stream.intruder_id_for_event s) w) as Hm.
    destruct (camera_stream.intruder_event_management _ _ _ _ _ _)
      as [[label v1] w1]. cbn [snd] in *. destruct Hm as [Hstop Hlast].
    split; [exact Hstop|]. destruct Hlast as [->|[_ Hle]];
      [apply Qle_refl | by apply window_nonneg_step].
  - unfold camera_stream.log_known_face.
    destruct (camera_stream.last_logged_times s !! n) as [t0|];
      [destruct (Qle_bool _ _)|]; cbn; (split; [done | apply Qle_refl]).
Qed.

Lemma process_faces_flags (clocks : nat -> camera_stream.Clock) f
    (encodings : list Descriptor) (i : nat) (names : list string) s w :
  stop_event (snd (camera_stream.process_faces clocks i f encodings names s w))
  = stop_event w
  /\ (last_unknown_capture_time w
      <= last_unknown_capture_time
           (snd (camera_stream.process_faces clocks i f encodings names s w)))%Q.
Proof.
  revert i names s w. induction encodings as [|d rest IH];
    intros i names s w; cbn [camera_stream.process_faces];
    [split; [done | apply Qle_refl]|].
  pose proof (process_face_flags (clocks i) f d s w) as [Hs Hl].
  destruct (camera_stream.process_face (clocks i) f d s w)
    as [[[label|e] s1] w1]; cbn [snd] in *; [|by split].
  destruct (IH (S i) (names ++ [label]) s1 w1) as [Hs' Hl'].
  split; [by rewrite Hs' | by eapply Qle_trans].
Qed.

(** What one frame can do to the session: the counter, the output queue,
    the labelling variable and the map of log times, nothing else. *)
Lemma publish_touches f s :
  exists q, camera_stream.publish f s = camera_stream.set_frame_queue q s.
Proof.
  unfold camera_stream.publish.
  destruct (queue.put_nowait f (camera_stream.frame_queue s)) as [q|e].
  - by exists q.
  - exists (camera_stream.frame_queue s). by destruct s.
Qed.

Lemma touched_publish f s0 s :
  touched_by_frame s0 s -> touched_by_frame s0 (camera_stream.publish f s).
Proof.
  intros (n & q & v & m & ->). destruct (publish_touches f
    (camera_stream.set_frame_counter
       n (camera_stream.set_frame_queue
            q (camera_stream.set_intruder_id_for_event
                 v (camera_stream.set_last_logged_times m s0))))) as [q' ->].
  exists n, q', v, m. by destruct s0.
Qed.

Lemma touched_counter s (n : nat) :
  touched_by_frame s (camera_stream.set_frame_counter n s).
Proof.
  exists n, (camera_stream.frame_queue s),
    (camera_stream.intruder_id_for_event s),
    (camera_stream.last_logged_times s). by destruct s.
Qed.

Lemma touched_faces s0 s (v : option string) (m : gmap string Q) :
  touched_by_frame s0 s ->
  touched_by_frame s0 (camera_stream.set_intruder_id_for_event
                         v (camera_stream.set_last_logged_times m s)).
Proof.
  intros (n & q & v0 & m0 & ->). exists n, q, v, m. by destruct s0.
Qed.

Lemma process_frame_touches (env : camera_stream.FrameEnv) f s w :
  touched_by_frame s (snd (fst (camera_stream.process_frame env f s w))).
Proof.
  unfold camera_stream.process_frame.
  set (s0 := camera_stream.set_frame_counter _ s).
  assert (H0 : touched_by_frame s s0) by apply touched_counter.
  destruct (_ =? 0)%nat; cbn [fst snd]; [|by apply touched_publish].
  destruct (frame_is_empty _); cbn [fst snd]; [by apply touched_publish|].
  destruct (face_locations _) as [locs|e]; cbn [fst snd];
    [|by apply touched_publish].
  destruct (_ <? _)%nat; cbn [fst snd]; [exact H0|].
  destruct (face_encodings _ _) as [encs|e]; cbn [fst snd];
    [|by apply touched_publish].
  destruct (stop_event _); cbn [fst snd]; [exact H0|].
  match goal with
  | |- context [camera_stream.process_faces ?c ?i ?g ?l ?n ?s1 ?w1] =>
      destruct (process_faces_touches c g l i n s1 w1) as (v & m & Hs);
      destruct (camera_stream.process_faces c i g l n s1 w1)
        as [[[names|e] s2] w2]
  end; cbn [fst snd] in *; subst s2.
  - apply touched_publish. by apply touched_faces.
  - by apply touched_faces.
Qed.

Lemma process_frame_world_le (env : camera_stream.FrameEnv) f s w :
  world_le w (snd (camera_stream.process_frame env f s w)).
Proof.
  unfold camera_stream.process_frame.
  destruct (_ =? 0)%nat; cbn [snd]; [|apply world_le_emit].
  destruct (frame_is_empty _); cbn [snd]; [apply world_le_emit|].
  set (w1 := emit _ w).
  assert (H1 : world_le w w1) by apply world_le_emit.
  destruct (face_locations _) as [locs|e]; cbn [snd].
  2:{ eapply world_le_trans; [exact H1|].
      eapply world_le_trans; [apply world_le_set_stop | apply world_le_emit]. }
  destruct (_ <? _)%nat; cbn [snd]; [exact H1|].
  set (w2 := emit _ w1).
  assert (H2 : world_le w w2).
  { eapply world_le_trans; [exact H1 | apply world_le_emit]. }
  destruct (face_encodings _ _) as [encs|e]; cbn [snd].
  2:{ eapply world_le_trans; [exact H2|].
      eapply world_le_trans; [apply world_le_set_stop | apply world_le_emit]. }
  set (w3 := if camera_stream.stop_meanwhile env then _ else _).
  assert (H3 : world_le w w3).
  { unfold w3. destruct (camera_stream.stop_meanwhile env);
      [eapply world_le_trans; [exact H2 | apply world_le_set_stop] | exact H2]. }
  destruct (stop_event w3) eqn:Hstop; cbn [snd]; [exact H3|].
  match goal with
  | |- context [camera_stream.process_faces ?c ?i ?g ?l ?n ?s1 ?w1] =>
      pose proof (process_faces_flags c g l i n s1 w1) as [Hs Hl];
      destruct (camera_stream.process_faces c i g l n s1 w1)
        as [[[names|e] s2] w4]
  end; cbn [snd] in *;
    (eapply world_le_trans; [exact H3|]); split;
    cbn [emit stop_event last_unknown_capture_time];
    try (rewrite Hs, Hstop; discriminate); exact Hl.
Qed.
End pipeline_invariants.

Section system_invariants.
Context {Descriptor Frame : Type}.
Context `{!FaceMetric Descriptor} `{!Vision Frame Descriptor}.
Implicit Types (w : World Descriptor Frame) (d : Descriptor) (f : Frame).
Implicit Types (s : camera_stream.Session Descriptor Frame).
Implicit Types (sys : camera_stream.System Descriptor Frame).

Lemma configure_capture_world_le (b : bool) s w :
  world_le w (camera_stream.configure_capture b s w).
Proof.
  unfold camera_stream.configure_capture. destruct b;
    split; cbn; try done; apply Qle_refl.
Qed.

Lemma reader_step_world_le (env : camera_stream.ReaderEnv Frame) s w :
  world_le w (snd (camera_stream.reader_step env s w)).
Proof.
  unfold camera_stream.reader_step, camera_stream.reader_prologue,
    camera_stream.reader_body, camera_stream.reader_epilogue.
  destruct (camera_stream.reader_thread s); cbn [snd];
    try apply world_le_refl.
  - destruct (camera_stream.open_ok env); cbn [negb snd].
    + eapply world_le_trans; [apply world_le_emit|].
      apply configure_capture_world_le.
    + eapply world_le_trans; [apply world_le_emit | apply world_le_set_stop].
  - destruct (stop_event w) eqn:Hstop; cbn [snd]; [apply world_le_emit|].
    destruct (camera_stream.read env) as [frame|]; cbn [snd];
      [apply world_le_emit|].
    destruct (camera_stream.open_ok env); cbn [negb snd].
    + do 3 (eapply world_le_trans; [apply world_le_emit|]).
      apply configure_capture_world_le.
    + split; cbn; [done | apply Qle_refl].
Qed.

Lemma processing_step_world_le (env : camera_stream.FrameEnv) s w :
  world_le w (snd (camera_stream.processing_step env s w)).
Proof.
  unfold camera_stream.processing_step.
  destruct (camera_stream.processing_thread s); cbn [snd];
    try apply world_le_refl.
  destruct (stop_event w); cbn [snd]; [apply world_le_refl|].
  destruct (queue.get_nowait _) as [[frame q]|e]; cbn [snd];
    [|apply world_le_emit].
  pose proof (process_frame_world_le env frame
                (camera_stream.set_internal_frame_queue q s) w) as Hle.
  by destruct (camera_stream.process_frame _ _ _ _) as [[[| |e] s1] w1].
Qed.

Lemma display_take_world s w : snd (camera_stream.display_take s w) = w.
Proof.
  unfold camera_stream.display_take.
  by destruct (queue.get_nowait _) as [[g q]|e].
Qed.

Lemma with_session_world_le (i : nat)
    (step : camera_stream.Session Descriptor Frame -> World Descriptor Frame
            -> camera_stream.Session Descriptor Frame * World Descriptor Frame)
    sys :
  (forall s w, world_le w (snd (step s w))) ->
  world_le (camera_stream.world sys)
           (camera_stream.world (camera_stream.with_session i step sys)).
Proof.
  intros Hstep. unfold camera_stream.with_session.
  destruct (camera_stream.sessions sys !! i) as [s|]; [|apply world_le_refl].
  specialize (Hstep s (camera_stream.world sys)).
  by destruct (step s (camera_stream.world sys)) as [s1 w1].
Qed.

Lemma system_step_world_le (ev : camera_stream.Event Frame) sys :
  world_le (camera_stream.world sys)
           (camera_stream.world (camera_stream.system_step ev sys)).
Proof.
  destruct ev as [|i env|i env|i]; cbn [camera_stream.system_step].
  - apply world_le_set_stop.
  - apply with_session_world_le. apply reader_step_world_le.
  - apply with_session_world_le. apply processing_step_world_le.
  - apply with_session_world_le. intros s w.
    rewrite display_take_world. apply world_le_refl.
Qed.

(** X4.  Whatever is scheduled (reader steps, processing steps, the
    display taking frames, stop requests, in any order and on any
    sessions), a stop event that is set is never cleared, and the timestamp
    of the last full intruder event never moves backwards, not even when
    the wall clock does. *)
Theorem stop_and_timestamp_never_go_back
    (schedule : list (camera_stream.Event Frame)) sys :
  (stop_event (camera_stream.world sys) = true ->
   stop_event (camera_stream.world (camera_stream.run_system schedule sys))
   = true)
  /\ (last_unknown_capture_time (camera_stream.world sys)
      <= last_unknown_capture_time
           (camera_stream.world (camera_stream.run_system schedule sys)))%Q.
Proof.
  change (world_le (camera_stream.world sys)
            (camera_stream.world (camera_stream.run_system schedule sys))).
  revert sys. induction schedule as [|ev rest IH]; intros sys;
    [apply world_le_refl|].
  cbn [camera_stream.run_system fold_left].
  eapply world_le_trans; [apply system_step_world_le | apply IH].
Qed.

(** The shape of the session a frame leaves behind. *)
Lemma process_frame_shape (env : camera_stream.FrameEnv) f s w :
  exists (v : option string) (m : gmap string Q),
    let s1 :=
      camera_stream.set_intruder_id_for_event
        v (camera_stream.set_last_logged_times
             m (camera_stream.set_frame_counter
                  (camera_stream.frame_counter s + 1) s)) in
    snd (fst (camera_stream.process_frame env f s w)) = s1
    \/ exists g : Frame,
         snd (fst (camera_stream.process_frame env f s w))
         = camera_stream.publish g s1.
Proof.
  unfold camera_stream.process_frame.
  set (s0 := camera_stream.set_frame_counter _ s).
  assert (Hid : s0 = camera_stream.set_intruder_id_for_event
                       (camera_stream.intruder_id_for_event s)
                       (camera_stream.set_last_logged_times
                          (camera_stream.last_logged_times s) s0))
    by (by destruct s).
  assert (Hpub : forall g,
             exists (v : option string) (m : gmap string Q),
               camera_stream.publish g s0
               = camera_stream.set_intruder_id_for_event
                   v (camera_stream.set_last_logged_times m s0)
               \/ exists g' : Frame,
                    camera_stream.publish g s0
                    = camera_stream.publish
                        g' (camera_stream.set_intruder_id_for_event
                              v (camera_stream.set_last_logged_times m s0))).
  { intros g. exists (camera_stream.intruder_id_for_event s),
      (camera_stream.last_logged_times s). right. exists g.
    by rewrite <- Hid. }
  assert (Hsame : exists (v : option string) (m : gmap string Q),
             s0 = camera_stream.set_intruder_id_for_event
                    v (camera_stream.set_last_logged_times m s0)
             \/ exists g' : Frame,
                  s0 = camera_stream.publish
                         g' (camera_stream.set_intruder_id_for_event
                               v (camera_stream.set_last_logged_times m s0))).
  { exists (camera_stream.intruder_id_for_event s),
      (camera_stream.last_logged_times s). by left. }
  destruct (_ =? 0)%nat; cbn [fst snd]; [|apply Hpub].
  destruct (frame_is_empty _); cbn [fst snd]; [apply Hpub|].
  destruct (face_locations _) as [locs|e]; cbn [fst snd]; [|apply Hpub].
  destruct (_ <? _)%nat; cbn [fst snd]; [exact Hsame|].
  destruct (face_encodings _ _) as [encs|e]; cbn [fst snd]; [|apply Hpub].
  destruct (stop_event _); cbn [fst snd]; [exact Hsame|].
  match goal with
  | |- context [camera_stream.process_faces ?c ?i ?g ?l ?n ?s1 ?w1] =>
      destruct (process_faces_touches c g l i n s1 w1) as (v & m & Hs);
      destruct (camera_stream.process_faces c i g l n s1 w1)
        as [[[names|e] s2] w2]
  end; cbn [fst snd] in *; subst s2; exists v, m.
  - right. by eexists.
  - by left.
Qed.

Lemma put_nowait_capacity (g : Frame) (q q' : queue.Queue Frame) :
  queue.put_nowait g q = Ok q' ->
  ((0 < queue.maxsize q)%nat ->
   (length (queue.items q) <= queue.maxsize q)%nat) ->
  queue.maxsize q' = queue.maxsize q
  /\ ((0 < queue.maxsize q')%nat ->
      (length (queue.items q') <= queue.maxsize q')%nat).
Proof.
  unfold queue.put_nowait, queue.full.
  destruct (0 <? queue.maxsize q)%nat eqn:Hpos;
    destruct (queue.maxsize q <=? length (queue.items q))%nat eqn:Hfull;
    cbn [andb]; try discriminate; intros [= <-] Hcap; cbn;
    (split; [reflexivity|]); rewrite length_app; cbn; intros Hp.
  - apply Nat.leb_gt in Hfull. lia.
  - apply Nat.ltb_ge in Hpos. lia.
  - apply Nat.ltb_ge in Hpos. lia.
Qed.

Lemma publish_queues_ok (g : Frame) s :
  queues_ok s -> queues_ok (camera_stream.publish g s).
Proof.
  intros (Hmax & Hlen & Hout). unfold camera_stream.publish.
  destruct (queue.put_nowait g (camera_stream.frame_queue s)) as [q|e] eqn:Hput;
    [|by repeat split].
  destruct (put_nowait_capacity g _ q Hput Hout) as [_ Hq].
  by repeat split.
Qed.

Lemma get_nowait_shrinks (q q' : queue.Queue Frame) (g : Frame) :
  queue.get_nowait q = Ok (g, q') ->
  queue.maxsize q' = queue.maxsize q
  /\ (length (queue.items q') <= length (queue.items q))%nat.
Proof.
  unfold queue.get_nowait. destruct (queue.items q) as [|x rest];
    [discriminate|]. intros [= <- <-]. cbn. split; [reflexivity | lia].
Qed.

Lemma process_frame_queues_ok (env : camera_stream.FrameEnv) f s w :
  queues_ok s ->
  queues_ok (snd (fst (camera_stream.process_frame env f s w))).
Proof.
  intros Hok. destruct (process_frame_shape env f s w) as (v & m & Hshape).
  cbv zeta in Hshape.
  assert (H1 : queues_ok
                 (camera_stream.set_intruder_id_for_event
                    v (camera_stream.set_last_logged_times
                         m (camera_stream.set_frame_counter
                              (camera_stream.frame_counter s + 1) s))))
    by exact Hok.
  destruct Hshape as [->|[g ->]]; [exact H1 | by apply publish_queues_ok].
Qed.

Lemma processing_step_queues_ok (env : camera_stream.FrameEnv) s w :
  queues_ok s -> queues_ok (fst (camera_stream.processing_step env s w)).
Proof.
  intros Hok. unfold camera_stream.processing_step.
  destruct (camera_stream.processing_thread s); cbn [fst]; try exact Hok.
  destruct (stop_event w); cbn [fst]; [exact Hok|].
  destruct (queue.get_nowait _) as [[frame q]|e] eqn:Hget; cbn [fst];
    [|exact Hok].
  assert (Hok1 : queues_ok (camera_stream.set_internal_frame_queue q s)).
  { destruct Hok as (Hmax & Hlen & Hout).
    destruct (get_nowait_shrinks _ _ _ Hget) as [Hm Hl].
    split; [cbn; by rewrite Hm|]. split; [cbn; lia | exact Hout]. }
  pose proof (process_frame_queues_ok env frame _ w Hok1) as Hpf.
  by destruct (camera_stream.process_frame _ _ _ _) as [[[| |e] s1] w1].
Qed.

Lemma reader_step_queues_ok (env : camera_stream.ReaderEnv Frame) s w :
  queues_ok s -> queues_ok (fst (camera_stream.reader_step env s w)).
Proof.
  intros Hok. unfold camera_stream.reader_step, camera_stream.reader_prologue,
    camera_stream.reader_body, camera_stream.reader_epilogue.
  destruct (camera_stream.reader_thread s); cbn [fst]; try exact Hok.
  - by destruct (camera_stream.open_ok env).
  - destruct (stop_event w); cbn [fst]; [exact Hok|].
    destruct (camera_stream.read env) as [frame|]; cbn [fst].
    + destruct Hok as (Hmax & Hlen & Hout).
      rewrite (handoff_single frame _ Hmax Hlen).
      split; [reflexivity|]. split; [cbn; lia | exact Hout].
    + by destruct (camera_stream.open_ok env).
Qed.

Lemma display_take_queues_ok s w :
  queues_ok s -> queues_ok (fst (camera_stream.display_take s w)).
Proof.
  intros Hok. unfold camera_stream.display_take.
  destruct (queue.get_nowait _) as [[g q]|e] eqn:Hget; cbn [fst]; [|exact Hok].
  destruct Hok as (Hmax & Hlen & Hout).
  destruct (get_nowait_shrinks _ _ _ Hget) as [Hm Hl].
  split; [exact Hmax|]. split; [exact Hlen|]. cbn. rewrite Hm. intros Hp.
  specialize (Hout Hp). lia.
Qed.

Lemma with_session_queues_ok (i : nat)
    (step : camera_stream.Session Descriptor Frame -> World Descriptor Frame
            -> camera_stream.Session Descriptor Frame * World Descriptor Frame)
    sys :
  (forall s w, queues_ok s -> queues_ok (fst (step s w))) ->
  Forall queues_ok (camera_stream.sessions sys) ->
  Forall queues_ok
         (camera_stream.sessions (camera_stream.with_session i step sys)).
Proof.
  intros Hstep Hall. unfold camera_stream.with_session.
  destruct (camera_stream.sessions sys !! i) as [s|] eqn:Hi; [|exact Hall].
  specialize (Hstep s (camera_stream.world sys)).
  destruct (step s (camera_stream.world sys)) as [s1 w1]. cbn.
  apply Forall_insert; [exact Hall|]. apply Hstep.
  by apply (Forall_lookup_1 _ _ _ _ Hall Hi).
Qed.

(** X5.  Whatever is scheduled, the two queues of every session stay
    within their capacity: the internal queue never holds more than one
    frame and the output queue never more than its [maxsize]. *)
Theorem queues_stay_within_capacity
    (schedule : list (camera_stream.Event Frame)) sys :
  Forall queues_ok (camera_stream.sessions sys) ->
  Forall queues_ok
         (camera_stream.sessions (camera_stream.run_system schedule sys)).
Proof.
  revert sys. induction schedule as [|ev rest IH]; intros sys Hall;
    [exact Hall|].
  cbn [camera_stream.run_system fold_left]. apply IH.
  destruct ev as [|i env|i env|i]; cbn [camera_stream.system_step].
  - exact Hall.
  - apply with_session_queues_ok; [|exact Hall].
    intros s w. apply reader_step_queues_ok.
  - apply with_session_queues_ok; [|exact Hall].
    intros s w. apply processing_step_queues_ok.
  - apply with_session_queues_ok; [|exact Hall].
    intros s w. apply display_take_queues_ok.
Qed.
End system_invariants.

(** * How a frame can end, and what a failure does to the pipeline *)

Section frame_outcomes.
Context {Descriptor Frame : Type}.
Context `{!FaceMetric Descriptor} `{!Vision Frame Descriptor}.
Implicit Types (w : World Descriptor Frame) (d : Descriptor) (f : Frame).
Implicit Types (s : camera_stream.Session Descriptor Frame).
Implicit Types (sys : camera_stream.System Descriptor Frame).
Implicit Types (env : camera_stream.FrameEnv).

(** X6.  A frame ends the processing loop in one of two ways.  A [break]
    happens only with the stop event set.  An exception raised while the
    faces of the frame are identified (an index out of range in the
    catalog, the unbound labelling variable) ends the loop with the stop
    event not set, so nothing tells the reader or the other cameras to
    stop.  A frame after which the loop goes on leaves the stop event as it
    found it. *)
Theorem frame_outcome_and_stop_event env f s w :
  match fst (fst (camera_stream.process_frame env f s w)) with
  | camera_stream.Break =>
      stop_event (snd (camera_stream.process_frame env f s w)) = true
  | camera_stream.Crash _ =>
      stop_event (snd (camera_stream.process_frame env f s w)) = false
  | camera_stream.Continue =>
      stop_event (snd (camera_stream.process_frame env f s w)) = stop_event w
  end.
Proof.
  unfold camera_stream.process_frame.
  destruct (_ =? 0)%nat; cbn [fst snd]; [|reflexivity].
  destruct (frame_is_empty _); cbn [fst snd]; [reflexivity|].
  destruct (face_locations _) as [locs|e]; cbn [fst snd]; [|reflexivity].
  destruct (_ <? _)%nat; cbn [fst snd]; [reflexivity|].
  destruct (face_encodings _ _) as [encs|e]; cbn [fst snd]; [|reflexivity].
  set (w2 := emit _ (emit _ w)).
  assert (H2 : stop_event w2 = stop_event w) by reflexivity.
  destruct (camera_stream.stop_meanwhile env); [reflexivity|].
  destruct (stop_event w2) eqn:Hstop; cbn [fst snd]; [exact Hstop|].
  match goal with
  | |- context [camera_stream.process_faces ?c ?i ?g ?l ?n ?s1 ?w1] =>
      pose proof (process_faces_flags c g l i n s1 w1) as [Hs _];
      destruct (camera_stream.process_faces c i g l n s1 w1)
        as [[[names|e] s2] w4]
  end; cbn [fst snd emit stop_event] in *; rewrite Hs; congruence.
Qed.

(** A reader in its loop that finds the stop event set releases the
    capture and ends. *)
Lemma reader_winds_down (envr : camera_stream.ReaderEnv Frame) s w :
  camera_stream.reader_thread s = camera_stream.Alive ->
  stop_event w = true ->
  camera_stream.reader_thread (fst (camera_stream.reader_step envr s w))
  = camera_stream.Finished
  /\ camera_stream.cap (fst (camera_stream.reader_step envr s w))
     = camera_stream.VideoCapture false
  /\ trace (snd (camera_stream.reader_step envr s w))
     = trace w ++ [ReleaseCapture (camera_stream.camera_input s)].
Proof.
  intros Halive Hstop. unfold camera_stream.reader_step.
  by rewrite Halive, Hstop.
Qed.

(** X7.  A detector or encoder that raises on a frame of one camera stops
    the whole pipeline: the processing step of that camera sets the shared
    stop event and ends its loop without resolving, capturing, logging or
    sending anything and without touching the registry, and from then on
    the reader of any camera that is still in its loop ends at its next
    step, releasing its capture. *)
Theorem detector_failure_stops_pipeline env f (rest : list Frame) s sys
    (i : nat) (e : exn) (locations : list Box) :
  camera_stream.sessions sys !! i = Some s ->
  camera_stream.processing_thread s = camera_stream.Alive ->
  stop_event (camera_stream.world sys) = false ->
  queue.items (camera_stream.internal_frame_queue s) = f :: rest ->
  (camera_stream.frame_counter s + 1) mod 4 = 0%nat ->
  frame_is_empty (cvtColor_BGR2RGB (resize_quarter f)) = false ->
  (face_locations (cvtColor_BGR2RGB (resize_quarter f)) = Raise e
   \/ (face_locations (cvtColor_BGR2RGB (resize_quarter f)) = Ok locations
       /\ (length locations <= camera_stream.MAX_REASONABLE_FACES)%nat
       /\ face_encodings (cvtColor_BGR2RGB (resize_quarter f))
                         (List.filter camera_stream.valid_face locations)
          = Raise e)) ->
  let sys' :=
    camera_stream.system_step (camera_stream.ProcessingRuns i env) sys in
  stop_event (camera_stream.world sys') = true
  /\ (camera_stream.processing_thread <$> camera_stream.sessions sys' !! i)
     = Some camera_stream.Finished
  /\ intruder_file (camera_stream.world sys')
     = intruder_file (camera_stream.world sys)
  /\ (forall k,
        occurrences k (trace (camera_stream.world sys'))
        = occurrences k (trace (camera_stream.world sys)))
  /\ (forall (j : nat) (sj : camera_stream.Session Descriptor Frame)
             (envr : camera_stream.ReaderEnv Frame),
        camera_stream.sessions sys' !! j = Some sj ->
        camera_stream.reader_thread sj = camera_stream.Alive ->
        exists sj',
          camera_stream.sessions
            (camera_stream.system_step (camera_stream.ReaderRuns j envr) sys')
            !! j = Some sj'
          /\ camera_stream.reader_thread sj' = camera_stream.Finished
          /\ camera_stream.cap sj' = camera_stream.VideoCapture false).
Proof.
  intros Hi Halive Hstop Hq Hmod Hne Hfail sys'.
  assert (Hlt : (i < length (camera_stream.sessions sys))%nat).
  { apply lookup_lt_is_Some. by eexists. }
  assert (Hstep : exists s1 w1,
             camera_stream.processing_step env s (camera_stream.world sys)
             = (s1, w1)
             /\ camera_stream.processing_thread s1 = camera_stream.Finished
             /\ stop_event w1 = true
             /\ intruder_file w1 = intruder_file (camera_stream.world sys)
             /\ (forall k, occurrences k (trace w1)
                           = occurrences k (trace (camera_stream.world sys)))).
  { unfold camera_stream.processing_step. rewrite Halive, Hstop.
    unfold queue.get_nowait. rewrite Hq.
    unfold camera_stream.process_frame.
    cbn [camera_stream.frame_counter camera_stream.set_frame_counter
         camera_stream.set_internal_frame_queue].
    rewrite Hmod, Hne. cbn [Nat.eqb].
    destruct Hfail as [Hloc|(Hloc & Hfew & Henc)]; rewrite Hloc.
    - eexists _, _. split; [reflexivity|].
      split; [reflexivity|].
      split; [reflexivity|]. split; [reflexivity|].
      intros k. cbn [emit set_stop_event trace].
      rewrite <- app_assoc, occurrences_app. destruct k; cbn; lia.
    - apply Nat.ltb_ge in Hfew. rewrite Hfew, Henc.
      eexists _, _. split; [reflexivity|].
      split; [reflexivity|].
      split; [reflexivity|]. split; [reflexivity|].
      intros k. cbn [emit set_stop_event trace].
      rewrite <- !app_assoc, occurrences_app. destruct k; cbn; lia. }
  destruct Hstep as (s1 & w1 & Hstep & Hfin & Hstop1 & Hfile & Hocc).
  assert (Hsys' : sys' = camera_stream.mkSystem
                           (<[i := s1]> (camera_stream.sessions sys)) w1).
  { unfold sys'. cbn [camera_stream.system_step].
    unfold camera_stream.with_session. by rewrite Hi, Hstep. }
  rewrite Hsys'. cbn [camera_stream.world camera_stream.sessions].
  split; [exact Hstop1|]. split.
  { rewrite list_lookup_insert_eq by exact Hlt. cbn. by rewrite Hfin. }
  split; [exact Hfile|]. split; [exact Hocc|].
  intros j sj envr Hj Hrj. cbn [camera_stream.system_step].
  unfold camera_stream.with_session.
  cbn [camera_stream.world camera_stream.sessions]. rewrite Hj.
  destruct (reader_winds_down envr sj w1 Hrj Hstop1) as (Hf & Hc & _).
  destruct (camera_stream.reader_step envr sj w1) as [sj' wj'].
  cbn [fst camera_stream.sessions] in *. exists sj'.
  split; [|by split].
  apply list_lookup_insert_eq. apply lookup_lt_is_Some. by eexists.
Qed.
End frame_outcomes.

(** * More on the two gates *)

Section gates_more.
Context {Descriptor Frame : Type}.
Context `{!FaceMetric Descriptor} `{!Vision Frame Descriptor}.
Implicit Types (w : World Descriptor Frame) (d : Descriptor) (f : Frame).
Implicit Types (s : camera_stream.Session Descriptor Frame).
Implicit Types (clk : camera_stream.Clock) (v : option string).

(** X8.  Two sightings of the same known person by one session, the second
    less than 25 s after the first, add at most one log entry between them,
    and exactly one when the session had no entry for this person; both are
    labelled with the person's name. *)
Theorem known_face_logged_once_per_window clk1 clk2 f1 f2 d s w
    (name_with_gender gender person_name : string) :
  camera_stream.recognize s d = Ok (name_with_gender, gender, person_name) ->
  name_with_gender <> "Unknown" ->
  (camera_stream.datetime_now clk2 - camera_stream.datetime_now clk1
   < config.KNOWN_FACE_LOG_DEBOUNCE_TIME)%Q ->
  let r1 := camera_stream.process_face clk1 f1 d s w in
  let r2 := camera_stream.process_face clk2 f2 d (snd (fst r1)) (snd r1) in
  fst (fst r1) = Ok person_name
  /\ fst (fst r2) = Ok person_name
  /\ (trace (snd r2) = trace w
      \/ trace (snd r2) = trace w ++ [WriteLogEntry person_name gender None])
  /\ (camera_stream.last_logged_times s !! name_with_gender = None ->
      trace (snd r2) = trace w ++ [WriteLogEntry person_name gender None]).
Proof.
  intros Hrec Hne Hclose. cbv zeta.
  rewrite (process_face_known clk1 f1 d s w _ _ _ Hrec Hne). cbn [fst snd].
  set (r1 := camera_stream.log_known_face _ _ _ _ _ w).
  rewrite (process_face_known clk2 f2 d _ (snd r1) name_with_gender gender
             person_name)
    by first [exact Hrec | exact Hne].
  cbn [fst snd camera_stream.last_logged_times
       camera_stream.set_last_logged_times].
  split; [reflexivity|]. split; [reflexivity|].
  unfold r1, camera_stream.log_known_face.
  assert (Hno : Qle_bool config.KNOWN_FACE_LOG_DEBOUNCE_TIME
                  (camera_stream.datetime_now clk2
                   - camera_stream.datetime_now clk1) = false).
  { destruct (Qle_bool _ _) eqn:Hb; [|reflexivity].
    apply Qle_bool_iff in Hb. destruct (Qlt_not_le _ _ Hclose Hb). }
  destruct (camera_stream.last_logged_times s !! name_with_gender)
    as [t0|] eqn:Hl.
  - split; [|discriminate].
    destruct (Qle_bool _ (camera_stream.datetime_now clk1 - t0)).
    + cbn [fst snd]. rewrite lookup_insert_eq, Hno. right. reflexivity.
    + cbn [fst snd]. rewrite Hl.
      destruct (Qle_bool _ (camera_stream.datetime_now clk2 - t0));
        [right | left]; reflexivity.
  - cbn [fst snd]. rewrite lookup_insert_eq, Hno.
    split; [right|intros _]; reflexivity.
Qed.

(** X9.  When the gate is open but the resolution raises (the registry
    file holds no id for the nearest matching record), the exception is
    swallowed: the debounce timestamp has been taken all the same, nothing
    is captured, logged or sent, the registry is not written, and the label
    is whatever the labelling variable held before. *)
Theorem failed_resolution_consumes_window (camera : CameraInput)
    clk f d v w (encodings : list Descriptor) (ids : list string) (j : nat) :
  intruder_file w = Some (encodings, ids) ->
  Exists (fun e => (norm_diff e d <= config.RECOGNITION_TOLERANCE)%Q)
         encodings ->
  np.argmin (face_recognition.face_distance encodings d) = Ok j ->
  (length ids <= j)%nat ->
  (config.UNKNOWN_CAPTURE_DEBOUNCE_TIME
   <= camera_stream.time_time clk - last_unknown_capture_time w)%Q ->
  camera_stream.intruder_event_management camera clk f d v w
  = (match v with
     | Some id => Ok id
     | None => Raise UnboundLocalError
     end, v,
     mkWorld (intruder_file w) (camera_stream.time_time clk) (stop_event w)
             (trace w ++ [LoadIntruderDb])).
Proof.
  intros Hf Hex Hj Hlen Hopen.
  unfold camera_stream.intruder_event_management.
  rewrite (gate_open _ _ Hopen). unfold camera_stream.full_intruder_event.
  assert (Hraise : intruder_tracker.match_or_add_intruder
                     d config.RECOGNITION_TOLERANCE
                     (set_last_unknown_capture_time
                        (camera_stream.time_time clk) w)
                   = (Raise IndexError,
                      emit LoadIntruderDb
                        (set_last_unknown_capture_time
                           (camera_stream.time_time clk) w))).
  { unfold intruder_tracker.match_or_add_intruder,
      intruder_tracker.load_intruder_db.
    cbn [intruder_file set_last_unknown_capture_time]. rewrite Hf.
    destruct encodings as [|e0 encodings]; [by inversion Hex|].
    change (py_truthy (e0 :: encodings)) with true. cbv iota.
    assert (Hany : existsb (fun m : bool => m)
                     (face_recognition.compare_faces
                        (e0 :: encodings) d config.RECOGNITION_TOLERANCE)
                   = true).
    { apply existsb_exists. exists true. split; [|done].
      unfold face_recognition.compare_faces, face_recognition.face_distance.
      rewrite map_map. apply in_map_iff.
      apply List.Exists_exists in Hex as (x & Hin & Hx).
      exists x. split; [by apply Qle_bool_iff | exact Hin]. }
    rewrite Hany, Hj. cbn [mbind Result_bind]. unfold py_index.
    by rewrite (lookup_ge_None_2 ids j Hlen). }
  rewrite Hraise. reflexivity.
Qed.

Lemma match_or_add_outcome d (tol : Q) w :
  registry_ok w ->
  exists (id : string) (w0 : World Descriptor Frame),
    intruder_tracker.match_or_add_intruder d tol w = (Ok id, w0)
    /\ In id (snd (registry w0))
    /\ (trace w0 = trace w ++ [LoadIntruderDb]
        \/ trace w0
           = trace w ++ [LoadIntruderDb;
                         SaveIntruderDb (fst (registry w0)) (snd (registry w0))]).
Proof.
  intros Hok. destruct (registry_ok_pairs w Hok) as (R & HR).
  rewrite (match_or_add_face_match R d tol w HR).
  pose proof (face_match_sound tol d R) as Hs.
  destruct (face_match tol d R) as [p|].
  - destruct Hs as (Hin & _). eexists _, _. split; [reflexivity|].
    rewrite registry_emit, HR. cbn [snd]. split; [by apply in_map | by left].
  - eexists _, _. split; [reflexivity|].
    rewrite registry_after_save. cbn [fst snd]. split.
    + apply in_or_app. right. by left.
    + right. cbn. by rewrite <- app_assoc.
Qed.

(** X10.  What a full intruder event puts on record, in this order: the
    registry is read (and saved when the face is new), the frame as it came
    from the camera is written to a file in the intruders folder, a log
    entry is written that carries the resolved id, the gender "Intruder"
    and the path of that file, and an alert is dispatched for the same path
    and this camera.  The id logged is the id shown on the frame and is an
    id of the registry as the event leaves it. *)
Theorem full_event_record (camera : CameraInput) clk f d v w :
  registry_ok w ->
  (config.UNKNOWN_CAPTURE_DEBOUNCE_TIME
   <= camera_stream.time_time clk - last_unknown_capture_time w)%Q ->
  exists (id : string) (w' : World Descriptor Frame),
    let path := camera_stream.capture_path (camera_stream.capture_stamp clk) in
    let record :=
      [ImWrite path f;
       WriteLogEntry id "Intruder" (Some path);
       SendAlert path (camera_stream.alert_stamp clk)
                 (str_of_camera camera)] in
    camera_stream.intruder_event_management camera clk f d v w
    = (Ok id, Some id, w')
    /\ In id (snd (registry w'))
    /\ (trace w' = trace w ++ [LoadIntruderDb] ++ record
        \/ trace w'
           = trace w
             ++ [LoadIntruderDb;
                 SaveIntruderDb (fst (registry w')) (snd (registry w'))]
             ++ record).
Proof.
  intros Hok Hopen. unfold camera_stream.intruder_event_management.
  rewrite (gate_open _ _ Hopen). unfold camera_stream.full_intruder_event.
  destruct (match_or_add_outcome d config.RECOGNITION_TOLERANCE
              (set_last_unknown_capture_time (camera_stream.time_time clk) w))
    as (id & w0 & -> & Hin & Htr); [exact Hok|].
  eexists id, _. cbv zeta. split; [reflexivity|].
  rewrite !registry_emit. split; [exact Hin|].
  cbn [emit trace]. destruct Htr as [->| ->]; [left | right];
    cbn [trace set_last_unknown_capture_time]; by rewrite <- !app_assoc.
Qed.
End gates_more.

(** * The log file *)

Section log_file_facts.
Local Open Scope string_scope.

Lemma str_app_cons (x : ascii) (a b : string) :
  String x a ++ b = String x (a ++ b).
Proof. reflexivity. Qed.

Lemma str_app_assoc (a b c : string) : (a ++ b) ++ c = a ++ (b ++ c).
Proof.
  induction a as [|x a IH]; [reflexivity|].
  by rewrite !str_app_cons, IH.
Qed.

Lemma str_app_nil_r (a : string) : a ++ "" = a.
Proof.
  induction a as [|x a IH]; [reflexivity|]. by rewrite str_app_cons, IH.
Qed.

Lemma str_length_app (a b : string) :
  String.length (a ++ b) = (String.length a + String.length b)%nat.
Proof.
  induction a as [|x a IH]; [reflexivity|].
  rewrite str_app_cons. cbn [String.length]. by rewrite IH.
Qed.

Lemma str_repeat_length (c : ascii) (n : nat) :
  String.length (str_repeat c n) = n.
Proof. induction n as [|n IH]; simpl; [reflexivity | by rewrite IH]. Qed.

Lemma ljust_length (width : nat) (s : string) :
  (String.length s <= width)%nat -> String.length (ljust width s) = width.
Proof.
  intros Hle. unfold ljust. rewrite str_length_app, str_repeat_length. lia.
Qed.

Lemma one_line_app (a b : string) :
  one_line (a ++ b) <-> one_line a /\ one_line b.
Proof.
  induction a as [|x a IH]; [cbn; tauto|].
  rewrite str_app_cons. cbn [one_line]. rewrite IH. tauto.
Qed.

Lemma one_line_spaces (n : nat) : one_line (str_repeat " " n).
Proof.
  induction n as [|n IH]; simpl; [exact I|].
  split; [discriminate|]. split; [discriminate | exact IH].
Qed.

Lemma one_line_ljust (width : nat) (s : string) :
  one_line s -> one_line (ljust width s).
Proof.
  intros Hs. unfold ljust. apply one_line_app. split; [exact Hs|].
  apply one_line_spaces.
Qed.

(** Reading goes through a text without line end and cuts after the line
    feed that follows it. *)
Lemma readlines_from_line (a acc rest : string) :
  one_line a ->
  readlines_from acc (a ++ nl ++ rest)
  = (acc ++ a ++ nl) :: readlines_from "" rest.
Proof.
  revert acc. induction a as [|c a IH]; intros acc Ha.
  - reflexivity.
  - destruct Ha as (Hlf & Hcr & Ha). rewrite str_app_cons.
    cbn [readlines_from].
    apply Ascii.eqb_neq in Hlf, Hcr. rewrite Hlf, Hcr.
    rewrite (IH _ Ha). by rewrite str_app_assoc.
Qed.

Lemma text_of_lines_app (ls1 ls2 : list string) :
  text_of_lines (ls1 ++ ls2)%list = text_of_lines ls1 ++ text_of_lines ls2.
Proof.
  induction ls1 as [|l ls1 IH]; cbn [app text_of_lines]; [reflexivity|].
  by rewrite IH, !str_app_assoc.
Qed.

Lemma readlines_text_of_lines (ls : list string) :
  Forall one_line ls ->
  readlines (text_of_lines ls) = map (fun l => l ++ nl) ls.
Proof.
  unfold readlines. induction 1 as [|l ls Hl _ IH]; [reflexivity|].
  cbn [text_of_lines map]. rewrite (readlines_from_line l "" _ Hl).
  by rewrite IH.
Qed.
End log_file_facts.

Section log_file_claims.
Local Open Scope string_scope.
Implicit Types (e : logging_manager.Entry) (log_file : option string).

Lemma entry_text_line e :
  logging_manager.entry_text e = logging_manager.entry_line e ++ nl.
Proof.
  unfold logging_manager.entry_text, logging_manager.formatted_entry,
    logging_manager.entry_line.
  by rewrite !str_app_assoc.
Qed.

Lemma entry_line_one_line e :
  logging_manager.entry_one_line e -> one_line (logging_manager.entry_line e).
Proof.
  intros (Hn & Hg & Hd & Hdt & Ht & Hl). unfold logging_manager.entry_line.
  repeat (apply one_line_app; split);
    try assumption; try apply one_line_spaces;
    cbn; repeat split; discriminate.
Qed.

Lemma header_lines :
  exists h sep : string,
    one_line h /\ one_line sep
    /\ logging_manager.log_header = h ++ nl
    /\ logging_manager.log_separator = sep ++ nl.
Proof.
  exists
    "NAME                      | GENDER   | DAY    | DATE         | TIME     | IMAGE_LINK",
    "--------------------------+----------+--------+--------------+----------+-----------".
  split; [vm_compute; repeat split; discriminate|].
  split; [vm_compute; repeat split; discriminate|].
  split; reflexivity.
Qed.

Lemma write_all_app (entries : list logging_manager.Entry) (ls : list string) :
  logging_manager.write_all entries (Some (text_of_lines ls))
  = Some (text_of_lines
            (ls ++ map logging_manager.entry_line entries)%list).
Proof.
  revert ls. induction entries as [|e entries IH]; intros ls;
    cbn [logging_manager.write_all fold_left map].
  - by rewrite app_nil_r.
  - unfold logging_manager.write_log_entry.
    fold (logging_manager.entry_text e). rewrite entry_text_line.
    replace (text_of_lines ls ++ logging_manager.entry_line e ++ nl)
      with (text_of_lines (ls ++ [logging_manager.entry_line e])%list).
    + fold (logging_manager.write_all entries
              (Some (text_of_lines (ls ++ [logging_manager.entry_line e])))).
      rewrite IH. by rewrite <- app_assoc.
    + rewrite text_of_lines_app. cbn [text_of_lines].
      by rewrite str_app_nil_r.
Qed.

(** X11.  Round trip of the log.  On a missing or empty log file, writing
    the header and then any number of entries whose texts hold no line end,
    and reading the file back, gives the header line, the separator line
    and then exactly one line per entry, in the order written, each being
    the formatted entry. *)
Theorem log_round_trip (entries : list logging_manager.Entry) log_file :
  log_file = None \/ log_file = Some "" ->
  Forall logging_manager.entry_one_line entries ->
  logging_manager.read_log_file
    true
    (logging_manager.write_all
       entries (logging_manager.write_log_header_if_needed true log_file))
  = logging_manager.log_header :: logging_manager.log_separator
    :: map logging_manager.entry_text entries.
Proof.
  intros Hfile Hclean.
  assert (Hhead : logging_manager.write_log_header_if_needed true log_file
                  = Some (logging_manager.log_header
                          ++ logging_manager.log_separator)).
  { by destruct Hfile as [-> | ->]. }
  rewrite Hhead.
  destruct header_lines as (h & sep & Hh & Hsep & Eh & Es).
  rewrite Eh, Es.
  replace ((h ++ nl) ++ sep ++ nl) with (text_of_lines [h; sep])
    by (cbn [text_of_lines]; by rewrite !str_app_assoc, str_app_nil_r).
  rewrite write_all_app. unfold logging_manager.read_log_file.
  rewrite readlines_text_of_lines.
  - cbn [app map]. f_equal. f_equal. rewrite map_map.
    apply map_ext. intros e. by rewrite entry_text_line.
  - repeat (constructor; [assumption|]).
    apply List.Forall_forall. intros l Hin.
    apply in_map_iff in Hin as (e & <- & He).
    apply entry_line_one_line. rewrite List.Forall_forall in Hclean.
    by apply Hclean.
Qed.

Lemma entry_text_not_empty (text : string) e :
  text ++ logging_manager.entry_text e <> "".
Proof.
  rewrite entry_text_line. intros Heq.
  apply (f_equal String.length) in Heq.
  rewrite !str_length_app in Heq. cbn in Heq. lia.
Qed.

(** X12.  The header is written to a missing or empty file only: a file
    that holds anything is returned as it is, so a log that holds an entry
    is never overwritten by a later start of the pipeline, and asking for
    the header twice is the same as asking once. *)
Theorem header_never_overwrites (open1 open2 : bool) log_file
    (now : logging_manager.Stamp) (name gender : string)
    (image_link : option string) :
  logging_manager.write_log_header_if_needed
    open2 (logging_manager.write_log_entry now name gender image_link true
                                           log_file)
  = logging_manager.write_log_entry now name gender image_link true log_file
  /\ logging_manager.write_log_header_if_needed
       open2 (logging_manager.write_log_header_if_needed true log_file)
     = logging_manager.write_log_header_if_needed true log_file
  /\ (forall text : string,
        text <> "" ->
        logging_manager.write_log_header_if_needed open1 (Some text)
        = Some text).
Proof.
  split; [|split].
  - unfold logging_manager.write_log_entry.
    pose proof (entry_text_not_empty
                  (match log_file with Some t => t | None => "" end)
                  (logging_manager.mkEntry now name gender image_link)) as Hne.
    unfold logging_manager.entry_text in Hne. cbn in Hne.
    unfold logging_manager.write_log_header_if_needed.
    by destruct (_ ++ _).
  - unfold logging_manager.write_log_header_if_needed.
    destruct log_file as [[|c t]|]; reflexivity.
  - intros text Hne. unfold logging_manager.write_log_header_if_needed.
    by destruct text.
Qed.
End log_file_claims.

Section log_columns.
Local Open Scope string_scope.
Implicit Types (e : logging_manager.Entry).

Lemma get_skip (a b : string) (n : nat) :
  (String.length a <= n)%nat -> get n (a ++ b) = get (n - String.length a) b.
Proof.
  intros Hle. rewrite (append_correct2 a b (n - String.length a)).
  f_equal. lia.
Qed.

Lemma substring_prefix (a b : string) :
  substring 0 (String.length a) (a ++ b) = a.
Proof.
  induction a as [|x a IH]; [by destruct b|].
  rewrite str_app_cons. cbn [String.length substring]. by rewrite IH.
Qed.

Ltac skip_column H :=
  rewrite get_skip by (rewrite (ljust_length _ _ H); lia);
  rewrite (ljust_length _ _ H); cbn [Nat.sub].

Ltac skip_separator :=
  rewrite (get_skip " | ") by (cbn; lia); cbn [String.length Nat.sub].

(** X13.  The name is written in full at the start of the entry, however
    long it is.  When every text fits the width of its column, the five
    column separators of the entry stand at the positions where the header
    line has its separators and the rule below it its crosses, and the
    image link starts right after the 74 characters of the five columns. *)
Theorem log_entry_columns e :
  String.prefix (logging_manager.entry_name e) (logging_manager.entry_text e)
  = true
  /\ (logging_manager.entry_fits e ->
      Forall (fun k =>
                get k (logging_manager.entry_text e) = Some "|"%char
                /\ get k logging_manager.log_header = Some "|"%char
                /\ get k logging_manager.log_separator = Some "+"%char)
             logging_manager.separator_columns
      /\ exists columns : string,
           String.length columns = 74%nat
           /\ logging_manager.entry_text e
              = columns
                ++ logging_manager.display_image_link
                     (logging_manager.entry_image_link e)
                ++ nl).
Proof.
  split.
  - apply prefix_correct.
    unfold logging_manager.entry_text, logging_manager.formatted_entry, ljust.
    rewrite str_app_assoc. apply substring_prefix.
  - intros (Hn & Hg & Hd & Hdt & Ht). split.
    + unfold logging_manager.separator_columns,
        logging_manager.entry_text, logging_manager.formatted_entry.
      repeat constructor; try reflexivity.
      * skip_column Hn. reflexivity.
      * skip_column Hn. skip_separator. skip_column Hg. reflexivity.
      * skip_column Hn. skip_separator. skip_column Hg. skip_separator.
        skip_column Hd. reflexivity.
      * skip_column Hn. skip_separator. skip_column Hg. skip_separator.
        skip_column Hd. skip_separator. skip_column Hdt. reflexivity.
      * skip_column Hn. skip_separator. skip_column Hg. skip_separator.
        skip_column Hd. skip_separator. skip_column Hdt. skip_separator.
        skip_column Ht. reflexivity.
    + exists (ljust 25 (logging_manager.entry_name e) ++ " | "
              ++ ljust 8 (logging_manager.entry_gender e) ++ " | "
              ++ ljust 6 (logging_manager.day_str
                            (logging_manager.entry_stamp e)) ++ " | "
              ++ ljust 12 (logging_manager.date_str
                             (logging_manager.entry_stamp e)) ++ " | "
              ++ ljust 8 (logging_manager.time_str
                            (logging_manager.entry_stamp e)) ++ " | ").
      split.
      * rewrite !str_length_app, !ljust_length by assumption. reflexivity.
      * unfold logging_manager.entry_text, logging_manager.formatted_entry.
        by rewrite !str_app_assoc.
Qed.
End log_columns.

(** * The known catalog *)

Section catalog_facts.
Context {Descriptor Frame : Type}.
Context `{!FaceMetric Descriptor} `{!Vision Frame Descriptor}.
Variable lower : string -> string.

Lemma argmin_from_bound (l : list Q) (bi i : nat) (best : Q) :
  (bi < i)%nat -> (np.argmin_from bi best i l < i + length l)%nat.
Proof.
  revert bi i best. induction l as [|x l IH]; intros bi i best Hlt;
    cbn [np.argmin_from length]; [lia|].
  destruct (Qle_bool best x).
  - specialize (IH bi (S i) best). lia.
  - specialize (IH i (S i) x). lia.
Qed.

Lemma argmin_bound (l : list Q) (j : nat) :
  np.argmin l = Ok j -> (j < length l)%nat.
Proof.
  destruct l as [|x l]; [discriminate|]. intros [= <-].
  pose proof (argmin_from_bound l 0 1 x). cbn [length]. lia.
Qed.

Lemma py_index_in_range {A : Type} (l : list A) (j : nat) :
  (j < length l)%nat -> exists x, l !! j = Some x /\ py_index l j = Ok x.
Proof.
  intros Hlt. destruct (lookup_lt_is_Some_2 l j Hlt) as [x Hx].
  exists x. unfold py_index. by rewrite Hx.
Qed.

(** X14.  A catalog as [load_known_face_encodings] returns it carries one
    gender per name.  When its file holds at least as many names as
    descriptors, the catalog lookup of a session built on it never raises:
    it answers with the "Unknown" defaults or with a stored name, the
    gender read off that very name, and the text in front of the name's
    first double underscore. *)
Theorem loaded_catalog_lookup_never_raises
    (encodings_file : option (list Descriptor * list string))
    (camera : CameraInput) (display_queue : queue.Queue Frame)
    (d : Descriptor) :
  let '(encodings, names, genders) :=
    face_data_manager.load_known_face_encodings lower encodings_file in
  length genders = length names
  /\ ((length encodings <= length names)%nat ->
      camera_stream.recognize
        (camera_stream.init camera encodings names genders display_queue) d
      = Ok ("Unknown", "Intruder", "Unknown")
      \/ exists name : string,
           In name names
           /\ camera_stream.recognize
                (camera_stream.init camera encodings names genders
                                    display_queue) d
              = Ok (name, face_data_manager.gender_of lower name,
                    if str_contains "__" name
                    then str_split_head "__" name else name)).
Proof.
  unfold face_data_manager.load_known_face_encodings.
  destruct encodings_file as [[encodings names]|];
    [|split; [reflexivity | by left]].
  split; [by rewrite length_map|]. intros Hlen.
  unfold camera_stream.recognize.
  cbn [camera_stream.init camera_stream.known_face_encodings
       camera_stream.known_face_names camera_stream.known_face_genders
       camera_stream.recognition_tolerance].
  destruct encodings as [|e0 encodings]; [by left|].
  change (py_truthy (e0 :: encodings)) with true. cbv iota.
  replace (0 <? length (face_recognition.face_distance (e0 :: encodings) d))%nat
    with true by reflexivity.
  destruct (np.argmin (face_recognition.face_distance (e0 :: encodings) d))
    as [j|e] eqn:Hj; [|discriminate].
  apply argmin_bound in Hj.
  unfold face_recognition.face_distance in Hj. rewrite length_map in Hj.
  cbn [mbind Result_bind].
  destruct (py_index_in_range
              (face_recognition.compare_faces
                 (e0 :: encodings) d config.RECOGNITION_TOLERANCE) j)
    as (m & _ & ->).
  { unfold face_recognition.compare_faces, face_recognition.face_distance.
    by rewrite !length_map. }
  destruct m; [|by left].
  destruct (py_index_in_range names j) as (name & Hname & Hidx); [lia|].
  rewrite Hidx. cbn [mbind Result_bind].
  rewrite (py_index_map (face_data_manager.gender_of lower) names j name Hname).
  right. exists name. split; [|reflexivity].
  apply list_elem_of_In. by eapply list_elem_of_lookup_2.
Qed.
End catalog_facts.

Section delete_person_facts.
Context {Descriptor : Type}.
Variable lower : string -> string.
Implicit Types (encodings : list Descriptor) (names : list string).

Lemma in_zip_snd encodings names (en : Descriptor * string) :
  In en (zip encodings names) -> In (snd en) names.
Proof.
  revert names. induction encodings as [|e encodings IH];
    intros [|n names]; cbn; try tauto.
  intros [<-|Hin]; [by left | right; by apply IH].
Qed.

Lemma member_of_filtered (keep : string -> bool) names (n : string) :
  In n names ->
  existsb (String.eqb n) (List.filter keep names) = keep n.
Proof.
  intros Hin. destruct (keep n) eqn:Hk.
  - apply existsb_exists. exists n. split; [|apply String.eqb_refl].
    apply filter_In. by split.
  - apply not_true_is_false. intros Hex.
    apply existsb_exists in Hex as (x & Hx & Heq).
    apply String.eqb_eq in Heq as ->. apply filter_In in Hx as [_ Hx].
    congruence.
Qed.

Lemma filter_none {A : Type} (p : A -> bool) (l : list A) :
  Forall (fun x => p x = false) l -> List.filter p l = [].
Proof.
  induction 1 as [|x l Hx _ IH]; [reflexivity|].
  cbn [List.filter]. by rewrite Hx.
Qed.

Lemma filter_partition_length {A : Type} (p : A -> bool) (l : list A) :
  (length (List.filter p l) + length (List.filter (fun x => negb (p x)) l)
   = length l)%nat.
Proof.
  induction l as [|x l IH]; [reflexivity|]. cbn [List.filter].
  destruct (p x); cbn [negb length]; lia.
Qed.

(** X15.  Deleting a person from the catalog.  When no stored name is the
    text given or shares its part in front of the first double underscore,
    the call raises [ValueError] and saves nothing.  Otherwise it saves the
    catalog without every entry of that person, whatever gender the entry
    carries, and with all other entries in their order, each descriptor
    still beside its name; the count it reports and the entries it keeps
    add up to the entries there were. *)
Theorem delete_person_removes_every_entry (person : string)
    encodings names :
  (Forall (fun n => face_data_manager.same_person person n = false) names ->
   face_data_manager.delete_person_entries lower person (Some (encodings, names))
   = Raise ValueError)
  /\ (Exists (fun n => face_data_manager.same_person person n = true) names ->
      exists (removed : nat) (kept : list (Descriptor * string)),
        face_data_manager.delete_person_entries
          lower person (Some (encodings, names))
        = Ok (removed, Some (map fst kept, map snd kept))
        /\ kept = List.filter
                    (fun en =>
                       negb (face_data_manager.same_person person (snd en)))
                    (zip encodings names)
        /\ Forall (fun n => face_data_manager.same_person person n = false)
                  (map snd kept)
        /\ (removed + length kept = length (zip encodings names))%nat).
Proof.
  unfold face_data_manager.delete_person_entries,
    face_data_manager.load_known_face_encodings.
  fold (face_data_manager.same_person person).
  change (fun name_in_list : string =>
            (String.eqb name_in_list person
             || String.eqb (str_split_head "__" name_in_list)
                           (str_split_head "__" person))%bool)
    with (face_data_manager.same_person person).
  set (out := List.filter (face_data_manager.same_person person) names).
  assert (Hmem : forall en, In en (zip encodings names) ->
                   existsb (String.eqb (snd en)) out
                   = face_data_manager.same_person person (snd en)).
  { intros en Hin. apply member_of_filtered. by eapply in_zip_snd. }
  split.
  - intros Hnone. assert (out = []) as ->; [|reflexivity].
    by apply filter_none.
  - intros Hsome. assert (Htruthy : py_truthy out = true).
    { apply List.Exists_exists in Hsome as (n & Hin & Hn).
      assert (Hout : In n out) by (apply filter_In; by split).
      by destruct out. }
    rewrite Htruthy. cbn [negb].
    eexists _, _. split; [reflexivity|].
    assert (Hkept : List.filter
                      (fun en => negb (existsb (String.eqb (snd en)) out))
                      (zip encodings names)
                    = List.filter
                        (fun en =>
                           negb (face_data_manager.same_person
                                   person (snd en)))
                        (zip encodings names)).
    { apply filter_ext_in. intros en Hin. by rewrite Hmem. }
    split; [exact Hkept|]. rewrite Hkept. split.
    + apply List.Forall_forall. intros n Hin.
      apply in_map_iff in Hin as (en & <- & Hen).
      apply filter_In in Hen as [_ Hen].
      by destruct (face_data_manager.same_person person (snd en)).
    + rewrite (filter_ext_in
                 (fun en => existsb (String.eqb (snd en)) out)
                 (fun en => face_data_manager.same_person person (snd en))
                 (zip encodings names) Hmem).
      apply filter_partition_length.
Qed.
End delete_person_facts.

(** * One full event per window, and the ids of the registry *)

Section window_facts.
Context {Descriptor Frame : Type}.
Context `{!FaceMetric Descriptor} `{!Vision Frame Descriptor}.
Implicit Types (w : World Descriptor Frame) (d : Descriptor) (f : Frame).
Implicit Types (x : Sighting Descriptor Frame).

Lemma match_or_add_no_event_parts d (tol : Q) w :
  occurrences Resolution
    (trace (snd (intruder_tracker.match_or_add_intruder d tol w)))
  = S (occurrences Resolution (trace w))
  /\ (forall k, k <> Resolution ->
        occurrences k
          (trace (snd (intruder_tracker.match_or_add_intruder d tol w)))
        = occurrences k (trace w)).
Proof.
  unfold intruder_tracker.match_or_add_intruder,
    intruder_tracker.load_intruder_db, intruder_tracker.save_intruder_db.
  destruct (intruder_file w) as [[encs ids]|];
    repeat match goal with
           | |- context [if ?b then _ else _] => destruct b
           end;
    cbn [snd emit trace write_intruder_file];
    (split;
     [rewrite <- ?app_assoc, !occurrences_app; cbn; lia
     |intros [] Hk; try congruence;
      rewrite <- ?app_assoc, !occurrences_app; cbn; lia]).
Qed.

(** One sighting adds at most one of each part of a full event; when its
    gate is closed it changes nothing, when it is open the timestamp
    becomes its clock reading. *)
Lemma handle_sighting_step x w :
  (forall k, (occurrences k (trace (handle_sighting w x))
              <= S (occurrences k (trace w)))%nat)
  /\ ((camera_stream.time_time (sighting_clock x) - last_unknown_capture_time w
       < config.UNKNOWN_CAPTURE_DEBOUNCE_TIME)%Q ->
      handle_sighting w x = w)
  /\ ((config.UNKNOWN_CAPTURE_DEBOUNCE_TIME
       <= camera_stream.time_time (sighting_clock x)
          - last_unknown_capture_time w)%Q ->
      last_unknown_capture_time (handle_sighting w x)
      = camera_stream.time_time (sighting_clock x)).
Proof.
  unfold handle_sighting. split; [|split].
  - intros k. unfold camera_stream.intruder_event_management,
      camera_stream.unknown_capture_debounce.
    destruct (Qle_bool _ _); cbn [snd]; [|lia].
    unfold camera_stream.full_intruder_event.
    destruct (match_or_add_no_event_parts
                (sighting_descriptor x) config.RECOGNITION_TOLERANCE
                (set_last_unknown_capture_time
                   (camera_stream.time_time (sighting_clock x)) w))
      as [Hres Hother].
    destruct (intruder_tracker.match_or_add_intruder _ _ _) as [[id|e] w1];
      cbn [snd emit trace set_last_unknown_capture_time] in *.
    + rewrite <- !app_assoc, occurrences_app.
      destruct k; [rewrite Hres | rewrite Hother by discriminate ..];
        cbn; lia.
    + destruct k; [rewrite Hres | rewrite Hother by discriminate ..]; lia.
  - intros Hclosed. by rewrite event_suppressed.
  - intros Hopen.
    pose proof (event_management_flags
                  (sighting_camera x) (sighting_clock x) (sighting_frame x)
                  (sighting_descriptor x) (sighting_variable x) w) as Hflags.
    cbv zeta in Hflags. destruct Hflags as [_ [Hsame|[Hnow _]]];
      [|exact Hnow].
    exfalso. revert Hsame.
    unfold camera_stream.intruder_event_management.
    rewrite (gate_open _ _ Hopen).
    unfold camera_stream.full_intruder_event.
    destruct (match_or_add_same_flags
                (sighting_descriptor x) config.RECOGNITION_TOLERANCE
                (set_last_unknown_capture_time
                   (camera_stream.time_time (sighting_clock x)) w))
      as [_ Hl].
    destruct (intruder_tracker.match_or_add_intruder _ _ _) as [[id|e] w1];
      cbn [snd emit last_unknown_capture_time set_last_unknown_capture_time]
        in *; rewrite Hl; intros Heq; rewrite Heq in Hopen;
      unfold config.UNKNOWN_CAPTURE_DEBOUNCE_TIME in Hopen; lra.
Qed.

Lemma sightings_after_event (t0 : Q) (xs : list (Sighting Descriptor Frame)) w :
  (t0 <= last_unknown_capture_time w)%Q ->
  Forall (in_window t0) xs ->
  handle_sightings xs w = w.
Proof.
  intros Hlast. induction 1 as [|x xs [_ Hx] _ IH]; [reflexivity|].
  cbn [handle_sightings fold_left].
  destruct (handle_sighting_step x w) as (_ & Hclosed & _).
  rewrite Hclosed; [exact IH|].
  unfold config.UNKNOWN_CAPTURE_DEBOUNCE_TIME in *. lra.
Qed.

(** X16.  However many unknown faces are handled, on whichever cameras,
    while the clock stays within one window of 10 s, at most one full
    event happens among them: the trace gains at most one resolution, one
    captured image, one intruder log entry and one alert. *)
Theorem one_full_event_per_window (t0 : Q)
    (xs : list (Sighting Descriptor Frame)) w (k : EventPart) :
  Forall (in_window t0) xs ->
  (occurrences k (trace (handle_sightings xs w))
   <= S (occurrences k (trace w)))%nat.
Proof.
  intros Hall. revert w. induction Hall as [|x xs Hx Hxs IH]; intros w;
    [cbn; lia|].
  cbn [handle_sightings fold_left].
  fold (handle_sightings xs (handle_sighting w x)).
  destruct (handle_sighting_step x w) as (Hone & Hclosed & Hopen).
  destruct (Qlt_le_dec
              (camera_stream.time_time (sighting_clock x)
               - last_unknown_capture_time w)
              config.UNKNOWN_CAPTURE_DEBOUNCE_TIME) as [Hc|Ho].
  - rewrite (Hclosed Hc). apply IH.
  - rewrite (sightings_after_event t0 xs (handle_sighting w x));
      [apply Hone | | exact Hxs].
    rewrite (Hopen Ho). apply Hx.
Qed.
End window_facts.

Section registry_ids.
Context {Descriptor Frame : Type} `{!FaceMetric Descriptor}.
Implicit Types (w : World Descriptor Frame) (d : Descriptor).

Lemma zip_fst_snd (encodings : list Descriptor) (ids : list string) :
  length encodings = length ids ->
  map fst (zip encodings ids) = encodings
  /\ map snd (zip encodings ids) = ids.
Proof.
  intros Hlen. split; [apply fst_zip | apply snd_zip]; lia.
Qed.

Lemma match_or_add_sequential d (tol : Q) w (encodings : list Descriptor) :
  registry w = (encodings, intruder_ids (length encodings)) ->
  exists (id : string) (encodings' : list Descriptor),
    fst (intruder_tracker.match_or_add_intruder d tol w) = Ok id
    /\ registry (snd (intruder_tracker.match_or_add_intruder d tol w))
       = (encodings', intruder_ids (length encodings'))
    /\ In id (intruder_ids (length encodings'))
    /\ (length encodings <= length encodings')%nat.
Proof.
  intros Hr.
  destruct (zip_fst_snd encodings (intruder_ids (length encodings)))
    as [Hf Hs]; [by rewrite intruder_ids_length|].
  set (R := zip encodings (intruder_ids (length encodings))) in *.
  assert (HR : registry w = (map fst R, map snd R)) by by rewrite Hf, Hs.
  rewrite (match_or_add_face_match R d tol w HR).
  pose proof (face_match_sound tol d R) as Hsound.
  destruct (face_match tol d R) as [p|].
  - destruct Hsound as (Hin & _). exists (snd p), encodings. cbn [fst snd].
    rewrite registry_emit. split; [reflexivity|]. split; [exact Hr|].
    split; [|lia]. rewrite <- Hs. by apply in_map.
  - exists (intruder_name (length R + 1)), (encodings ++ [d]). cbn [fst snd].
    rewrite registry_after_save, Hf, Hs.
    assert (HlenR : length R = length encodings).
    { rewrite <- (length_map fst R). by rewrite Hf. }
    rewrite HlenR, length_app. cbn [length].
    rewrite (Nat.add_1_r (length encodings)), intruder_ids_S, Nat.add_1_r.
    split; [reflexivity|]. split; [reflexivity|].
    split; [apply in_or_app; right; by left | lia].
Qed.

(** X17.  Whatever descriptors are resolved one after the other, new or
    seen before, a registry whose ids are "Intruder_1", ..., "Intruder_n"
    keeps ids of this form: after the calls the file holds as many ids as
    descriptors, the ids are "Intruder_1", ..., "Intruder_m" for the m
    records it then has, without gap or repeat, no call raises, and every
    id returned is one of them. *)
Theorem registry_ids_stay_sequential (ds : list Descriptor) (tol : Q) w
    (encodings : list Descriptor) :
  registry w = (encodings, intruder_ids (length encodings)) ->
  exists encodings' : list Descriptor,
    registry (snd (resolve_all ds tol w))
    = (encodings', intruder_ids (length encodings'))
    /\ List.NoDup (intruder_ids (length encodings'))
    /\ (length encodings <= length encodings')%nat
    /\ Forall (fun r => exists id : string,
                 r = Ok id /\ In id (intruder_ids (length encodings')))
              (fst (resolve_all ds tol w)).
Proof.
  revert w encodings. induction ds as [|d ds IH]; intros w encodings Hr.
  - exists encodings. cbn [resolve_all fst snd].
    split; [exact Hr|]. split; [apply intruder_ids_NoDup|].
    split; [lia | constructor].
  - cbn [resolve_all].
    destruct (match_or_add_sequential d tol w encodings Hr)
      as (id & encs1 & Hid & Hr1 & Hin1 & Hle1).
    destruct (intruder_tracker.match_or_add_intruder d tol w) as [r w1].
    cbn [fst snd] in *. subst r.
    destruct (IH w1 encs1 Hr1) as (encs2 & Hr2 & Hnd & Hle2 & Hall).
    destruct (resolve_all ds tol w1) as [rs w2]. cbn [fst snd] in *.
    exists encs2. split; [exact Hr2|]. split; [exact Hnd|].
    split; [lia|]. constructor; [|exact Hall].
    exists id. split; [reflexivity|].
    unfold intruder_ids in *. apply in_map_iff in Hin1 as (k & <- & Hk).
    apply in_map_iff. exists k. split; [reflexivity|].
    apply in_seq in Hk. apply in_seq. lia.
Qed.
End registry_ids.

Section small_faces.
Context {Descriptor Frame : Type}.
Context `{!FaceMetric Descriptor} `{!Vision Frame Descriptor}.

Lemma filter_all_small (locations : list Box) :
  Forall (fun b : Box =>
            let '(top, right_, bottom, left_) := b in
            (bottom - top < camera_stream.min_face_size)%Z
            \/ (right_ - left_ < camera_stream.min_face_size)%Z) locations ->
  List.filter camera_stream.valid_face locations = [].
Proof.
  intros Hall. apply filter_none. eapply Forall_impl; [exact Hall|].
  intros [[[t r] b] l] Hsmall. unfold camera_stream.valid_face.
  apply andb_false_iff. destruct Hsmall as [H|H]; [left | right];
    apply Z.leb_gt; exact H.
Qed.

(** X18.  A processed frame in which every box the detector reports is
    less than 20 pixels high or less than 20 pixels wide is handled as a
    frame without faces: the encoder is given no box, and when it returns
    no descriptor nobody is identified, neither gate is consulted, and the
    frame is published with the banner that says no face was detected. *)
Theorem small_faces_are_ignored (env : camera_stream.FrameEnv) (f : Frame)
    (s : camera_stream.Session Descriptor Frame) (w : World Descriptor Frame)
    (locations : list Box) :
  (camera_stream.frame_counter s + 1) mod 4 = 0%nat ->
  frame_is_empty (cvtColor_BGR2RGB (resize_quarter f)) = false ->
  face_locations (cvtColor_BGR2RGB (resize_quarter f)) = Ok locations ->
  (length locations <= camera_stream.MAX_REASONABLE_FACES)%nat ->
  Forall (fun b : Box =>
            let '(top, right_, bottom, left_) := b in
            (bottom - top < camera_stream.min_face_size)%Z
            \/ (right_ - left_ < camera_stream.min_face_size)%Z) locations ->
  face_encodings (cvtColor_BGR2RGB (resize_quarter f)) [] = Ok [] ->
  camera_stream.stop_meanwhile env = false ->
  stop_event w = false ->
  camera_stream.process_frame env f s w
  = (camera_stream.Continue,
     camera_stream.publish
       (camera_stream.draw_banner f)
       (camera_stream.set_frame_counter (camera_stream.frame_counter s + 1) s),
     mkWorld (intruder_file w) (last_unknown_capture_time w) false
             (trace w
              ++ [FaceLocations (cvtColor_BGR2RGB (resize_quarter f));
                  FaceEncodings (cvtColor_BGR2RGB (resize_quarter f)) [];
                  Sleep (1 # 1000)])).
Proof.
  intros Hmod Hne Hloc Hfew Hsmall Henc Hmean Hstop.
  unfold camera_stream.process_frame.
  cbn [camera_stream.frame_counter camera_stream.set_frame_counter].
  rewrite Hmod, Hne, Hloc. cbn [Nat.eqb].
  apply Nat.ltb_ge in Hfew. rewrite Hfew.
  rewrite (filter_all_small locations Hsmall), Henc, Hmean.
  cbn [emit stop_event]. rewrite Hstop.
  cbn [camera_stream.process_faces camera_stream.annotate length Nat.ltb
       Nat.leb].
  unfold emit. cbn. rewrite Hstop. by rewrite <- !app_assoc.
Qed.
End small_faces.

(** * The properties at concrete inputs *)

Lemma match_or_add_keeps_records_witness :
  exists id : string,
    fst (intruder_tracker.match_or_add_intruder
           7%Z config.RECOGNITION_TOLERANCE toy.world0) = Ok id
    /\ In id (snd (registry
                     (snd (intruder_tracker.match_or_add_intruder
                             7%Z config.RECOGNITION_TOLERANCE toy.world0)))).
Proof.
  destruct (match_or_add_keeps_records
              7%Z config.RECOGNITION_TOLERANCE toy.world0 eq_refl)
    as (id & Hid & _ & _ & Hin).
  exists id. split; assumption.
Defined.

Lemma match_or_add_idempotent_witness :
  fst (intruder_tracker.match_or_add_intruder
         7%Z config.RECOGNITION_TOLERANCE
         (snd (intruder_tracker.match_or_add_intruder
                 7%Z config.RECOGNITION_TOLERANCE toy.world0)))
  = fst (intruder_tracker.match_or_add_intruder
           7%Z config.RECOGNITION_TOLERANCE toy.world0).
Proof.
  assert (Hself : (norm_diff 7%Z 7%Z <= config.RECOGNITION_TOLERANCE)%Q).
  { vm_compute. discriminate. }
  destruct (match_or_add_idempotent
              7%Z config.RECOGNITION_TOLERANCE toy.world0 eq_refl Hself)
    as (H & _).
  exact H.
Defined.

Lemma match_or_add_missing_id_witness :
  intruder_tracker.match_or_add_intruder
    7%Z config.RECOGNITION_TOLERANCE toy_more.world_without_ids
  = (Raise IndexError, emit LoadIntruderDb toy_more.world_without_ids).
Proof.
  assert (Hex : Exists (fun e : Z =>
                          (norm_diff e 7%Z <= config.RECOGNITION_TOLERANCE)%Q)
                       [7%Z]).
  { apply Exists_cons_hd. vm_compute. discriminate. }
  assert (Hlen : (length (@nil string) <= 0)%nat) by (cbn; lia).
  exact (match_or_add_missing_id
           7%Z config.RECOGNITION_TOLERANCE toy_more.world_without_ids
           [7%Z] [] 0 eq_refl Hex eq_refl Hlen).
Defined.

Lemma queues_stay_within_capacity_witness :
  Forall queues_ok
         (camera_stream.sessions
            (camera_stream.run_system
               (toy.four_frames 0 1000 (toy.portrait 7)
                ++ toy.four_frames 1 1003 (toy.portrait 90))
               toy.two_cameras)).
Proof.
  apply queues_stay_within_capacity.
  repeat constructor; cbn; lia.
Defined.

Lemma detector_failure_stops_pipeline_witness :
  stop_event
    (camera_stream.world
       (camera_stream.system_step
          (camera_stream.ProcessingRuns 0 (toy.env_at 1000))
          toy_more.garbled_system)) = true.
Proof.
  assert (Hfail : face_locations
                    (cvtColor_BGR2RGB (resize_quarter toy_more.Garbled))
                  = Raise LibraryError
                  \/ (face_locations
                        (cvtColor_BGR2RGB (resize_quarter toy_more.Garbled))
                      = Ok []
                      /\ (length (@nil Box)
                          <= camera_stream.MAX_REASONABLE_FACES)%nat
                      /\ face_encodings
                           (cvtColor_BGR2RGB (resize_quarter toy_more.Garbled))
                           (List.filter camera_stream.valid_face [])
                         = Raise LibraryError)).
  { left. reflexivity. }
  assert (Hne : frame_is_empty
                  (cvtColor_BGR2RGB (resize_quarter toy_more.Garbled))
                = false) by reflexivity.
  destruct (detector_failure_stops_pipeline
              (toy.env_at 1000) toy_more.Garbled [] toy_more.garbled_session
              toy_more.garbled_system 0 LibraryError []
              eq_refl eq_refl eq_refl eq_refl eq_refl Hne Hfail) as (H & _).
  exact H.
Defined.

Lemma known_face_logged_once_per_window_witness :
  trace (snd (camera_stream.process_face
                (toy.clock_at 1010) (toy.portrait 104) 104%Z
                (snd (fst (camera_stream.process_face
                             (toy.clock_at 1000) (toy.portrait 104) 104%Z
                             toy.session_alice toy.world0)))
                (snd (camera_stream.process_face
                        (toy.clock_at 1000) (toy.portrait 104) 104%Z
                        toy.session_alice toy.world0))))
  = trace toy.world0 ++ [WriteLogEntry "Alice" "female" None].
Proof.
  assert (Hne : "Alice__female" <> "Unknown") by discriminate.
  assert (Hrec : camera_stream.recognize toy.session_alice 104%Z
                 = Ok ("Alice__female", "female", "Alice")).
  { vm_compute. reflexivity. }
  assert (Hclose : (camera_stream.datetime_now (toy.clock_at 1010)
                    - camera_stream.datetime_now (toy.clock_at 1000)
                    < config.KNOWN_FACE_LOG_DEBOUNCE_TIME)%Q).
  { reflexivity. }
  destruct (known_face_logged_once_per_window
              (toy.clock_at 1000) (toy.clock_at 1010) (toy.portrait 104)
              (toy.portrait 104) 104%Z toy.session_alice toy.world0
              "Alice__female" "female" "Alice" Hrec Hne Hclose)
    as (_ & _ & _ & Hfirst).
  apply Hfirst. reflexivity.
Defined.

Lemma failed_resolution_consumes_window_witness :
  camera_stream.intruder_event_management
    toy.webcam (toy.clock_at 1000) (toy.portrait 7) 7%Z None
    toy_more.world_without_ids
  = (Raise UnboundLocalError, None,
     mkWorld (Some ([7%Z], [])) 1000 false [LoadIntruderDb]).
Proof.
  assert (Hex : Exists (fun e : Z =>
                          (norm_diff e 7%Z <= config.RECOGNITION_TOLERANCE)%Q)
                       [7%Z]).
  { apply Exists_cons_hd. vm_compute. discriminate. }
  assert (Hlen : (length (@nil string) <= 0)%nat) by (cbn; lia).
  assert (Hopen : (config.UNKNOWN_CAPTURE_DEBOUNCE_TIME
                   <= camera_stream.time_time (toy.clock_at 1000)
                      - last_unknown_capture_time toy_more.world_without_ids)%Q).
  { vm_compute. discriminate. }
  exact (failed_resolution_consumes_window
           toy.webcam (toy.clock_at 1000) (toy.portrait 7) 7%Z None
           toy_more.world_without_ids [7%Z] [] 0 eq_refl Hex eq_refl Hlen
           Hopen).
Defined.

Lemma full_event_record_witness :
  exists (id : string) (w' : World Z toy.Image),
    camera_stream.intruder_event_management
      toy.webcam (toy.clock_at 1000) (toy.portrait 7) 7%Z None toy.world0
    = (Ok id, Some id, w')
    /\ In id (snd (registry w')).
Proof.
  assert (Hopen : (config.UNKNOWN_CAPTURE_DEBOUNCE_TIME
                   <= camera_stream.time_time (toy.clock_at 1000)
                      - last_unknown_capture_time toy.world0)%Q).
  { vm_compute. discriminate. }
  destruct (full_event_record
              toy.webcam (toy.clock_at 1000) (toy.portrait 7) 7%Z None
              toy.world0 eq_refl Hopen) as (id & w' & H).
  cbv zeta in H. destruct H as (Heq & Hin & _).
  exists id, w'. split; assumption.
Defined.

Lemma log_round_trip_witness :
  logging_manager.read_log_file
    true
    (logging_manager.write_all
       [toy_more.entry_alice; toy_more.entry_intruder]
       (logging_manager.write_log_header_if_needed true None))
  = [logging_manager.log_header; logging_manager.log_separator;
     logging_manager.entry_text toy_more.entry_alice;
     logging_manager.entry_text toy_more.entry_intruder].
Proof.
  apply (log_round_trip [toy_more.entry_alice; toy_more.entry_intruder] None).
  - by left.
  - repeat constructor; vm_compute; repeat split; discriminate.
Defined.

Lemma log_entry_columns_witness :
  Forall (fun k =>
            get k (logging_manager.entry_text toy_more.entry_intruder)
            = Some "|"%char
            /\ get k logging_manager.log_header = Some "|"%char
            /\ get k logging_manager.log_separator = Some "+"%char)
         logging_manager.separator_columns.
Proof.
  destruct (log_entry_columns toy_more.entry_intruder) as (_ & Hfits).
  assert (Hf : logging_manager.entry_fits toy_more.entry_intruder).
  { vm_compute. repeat split; lia. }
  destruct (Hfits Hf) as (H & _). exact H.
Defined.

Lemma loaded_catalog_lookup_never_raises_witness :
  let s : camera_stream.Session Z toy.Image :=
    camera_stream.init toy.webcam [100%Z] ["Alice__FEMALE"]
                       [face_data_manager.gender_of toy_more.lower
                                                    "Alice__FEMALE"]
                       (queue.mkQueue 1 []) in
  camera_stream.recognize s 104%Z = Ok ("Unknown", "Intruder", "Unknown")
  \/ exists name : string,
       In name ["Alice__FEMALE"]
       /\ camera_stream.recognize s 104%Z
          = Ok (name, face_data_manager.gender_of toy_more.lower name,
                if str_contains "__" name
                then str_split_head "__" name else name).
Proof.
  pose proof (loaded_catalog_lookup_never_raises
                (Frame := toy.Image) toy_more.lower
                (Some ([100%Z], ["Alice__FEMALE"])) toy.webcam
                (queue.mkQueue 1 []) 104%Z) as H.
  cbn [face_data_manager.load_known_face_encodings map] in H.
  destruct H as [_ H]. cbv zeta. apply H. cbn. lia.
Defined.

Lemma delete_person_removes_every_entry_witness :
  exists (removed : nat) (kept : list (Z * string)),
    face_data_manager.delete_person_entries
      toy_more.lower "John__male"
      (Some ([1; 2; 3]%Z, ["John__male"; "Alice__female"; "John__female"]))
    = Ok (removed, Some (map fst kept, map snd kept))
    /\ kept = [(2%Z, "Alice__female")].
Proof.
  destruct (delete_person_removes_every_entry
              toy_more.lower "John__male" [1; 2; 3]%Z
              ["John__male"; "Alice__female"; "John__female"])
    as (_ & Hsome).
  destruct Hsome as (removed & kept & Heq & Hkept & _).
  { apply Exists_cons_hd. reflexivity. }
  exists removed, kept. split; [exact Heq|]. rewrite Hkept.
  vm_compute. reflexivity.
Defined.

Lemma one_full_event_per_window_witness :
  (occurrences Notification
     (trace (handle_sightings toy_more.three_sightings toy.world0))
   <= S (occurrences Notification (trace toy.world0)))%nat.
Proof.
  apply (one_full_event_per_window 1000).
  repeat constructor; vm_compute; discriminate.
Defined.

Lemma registry_ids_stay_sequential_witness :
  exists encodings' : list Z,
    registry (snd (resolve_all [7; 90; 8; 91]%Z config.RECOGNITION_TOLERANCE
                               toy.world0))
    = (encodings', intruder_ids (length encodings')).
Proof.
  destruct (registry_ids_stay_sequential
              [7; 90; 8; 91]%Z config.RECOGNITION_TOLERANCE toy.world0 []
              eq_refl) as (encs & H & _).
  exists encs. exact H.
Defined.

Lemma small_faces_are_ignored_witness :
  fst (fst (camera_stream.process_frame
              (toy.env_at 1000) toy_more.tiny_face
              (camera_stream.set_frame_counter 3 toy.session0) toy.world0))
  = camera_stream.Continue.
Proof.
  assert (Hsmall : Forall (fun b : Box =>
                             let '(top, right_, bottom, left_) := b in
                             (bottom - top < camera_stream.min_face_size)%Z
                             \/ (right_ - left_
                                 < camera_stream.min_face_size)%Z)
                          [(0, 10, 10, 0)%Z]).
  { repeat constructor. }
  assert (Hmod : (camera_stream.frame_counter
                    (camera_stream.set_frame_counter 3 toy.session0) + 1)
                 mod 4 = 0%nat) by reflexivity.
  assert (Hne : frame_is_empty
                  (cvtColor_BGR2RGB (resize_quarter toy_more.tiny_face))
                = false) by reflexivity.
  assert (Hloc : face_locations
                   (cvtColor_BGR2RGB (resize_quarter toy_more.tiny_face))
                 = Ok [(0, 10, 10, 0)%Z]) by reflexivity.
  assert (Henc : face_encodings
                   (cvtColor_BGR2RGB (resize_quarter toy_more.tiny_face)) []
                 = Ok []) by reflexivity.
  assert (Hfew : (length [(0, 10, 10, 0)%Z]
                  <= camera_stream.MAX_REASONABLE_FACES)%nat).
  { vm_compute. lia. }
  rewrite (small_faces_are_ignored
             (toy.env_at 1000) toy_more.tiny_face
             (camera_stream.set_frame_counter 3 toy.session0) toy.world0
             [(0, 10, 10, 0)%Z] Hmod Hne Hloc Hfew Hsmall Henc eq_refl
             eq_refl).
  reflexivity.
Defined.
